(** * numeric_map: sorted vector map, interpolators and gradients

    A shallow embedding of [vector_map.h], [interpolators.h],
    [interpolating_map.h] and [gradients.h].

    Conventions.
    - A contiguous [std::vector] is a [list]; an iterator is the offset of
      the element from [begin()], so [end()] is [length mem_].
    - Dereferencing an iterator outside [0, size) is undefined behaviour in
      the source; every read goes through [nth_error] and the operations
      live in the [option] monad, [None] standing for undefined behaviour.
    - The [while(count > 0)] loops recurse on a natural number that bounds
      [count] from above; it is a termination measure only and the loops
      never run out of it.
    - A call of a function template that names no template argument is
      well-formed only if every template parameter can be deduced from the
      function arguments; a member whose body holds a call that is not
      well-formed cannot be instantiated, and its model says so instead of
      returning a value. *)

From Stdlib Require Import List Arith Bool Lia ZArith QArith Permutation.
Import ListNotations.
Close Scope Q_scope.
Open Scope nat_scope.

Set Implicit Arguments.

(* ------------------------------------------------------------------ *)
(** ** Undefined behaviour as a small error monad                       *)
(* ------------------------------------------------------------------ *)

Definition bind {A B : Type} (m : option A) (f : A -> option B) : option B :=
  match m with
  | Some a => f a
  | None => None
  end.

Notation "x <- m ;; k" := (bind m (fun x => k))
  (at level 61, m at next level, right associativity).

(* ------------------------------------------------------------------ *)
(** ** The comparison a key type brings along                           *)
(* ------------------------------------------------------------------ *)

(** [operator<] of the key type, as the C++ library requires it of every
    comparison handed to a binary search: a strict weak ordering. *)
Class StrictWeakOrder {K : Type} (ltb : K -> K -> bool) : Prop := {
  ltb_irrefl : forall a, ltb a a = false;
  ltb_trans : forall a b c, ltb a b = true -> ltb b c = true -> ltb a c = true;
  ltb_negtrans : forall a b c,
      ltb a c = true -> ltb a b = true \/ ltb b c = true
}.

(** Two keys are equivalent when neither is less than the other. *)
Definition key_equiv {K : Type} (ltb : K -> K -> bool) (a b : K) : Prop :=
  ltb a b = false /\ ltb b a = false.

(** The same as a test. *)
Definition key_equivb {K : Type} (ltb : K -> K -> bool) (a b : K) : bool :=
  negb (ltb a b) && negb (ltb b a).

(* ------------------------------------------------------------------ *)
(** ** Sortedness of a sequence                                         *)
(* ------------------------------------------------------------------ *)

Section Sortedness.
Variable A : Type.
Variable le : A -> A -> bool.

(** Every element is in relation with its successor. *)
Fixpoint sortedb (l : list A) : bool :=
  match l with
  | [] => true
  | x :: l' =>
      match l' with
      | [] => true
      | y :: _ => le x y && sortedb l'
      end
  end.

(** Every element is in relation with every later one. *)
Definition ordered (l : list A) : Prop :=
  forall i j a b, i < j ->
    nth_error l i = Some a -> nth_error l j = Some b -> le a b = true.

End Sortedness.

(* ------------------------------------------------------------------ *)
(** ** The pieces of the C++ standard library the sources call          *)
(* ------------------------------------------------------------------ *)

Section StdLibrary.
Variable A : Type.

(** [std::vector::insert(pos, val)]: [pos] has to lie in [begin, end]. *)
Definition vec_insert (mem : list A) (pos : nat) (val : A) : option (list A) :=
  if pos <=? length mem
  then Some (firstn pos mem ++ val :: skipn pos mem)
  else None.

(** [std::vector::erase(pos)]: [pos] has to be dereferenceable; the
    iterator following the removed element is returned. *)
Definition vec_erase (mem : list A) (pos : nat) : option (list A * nat) :=
  if pos <? length mem
  then Some (firstn pos mem ++ skipn (S pos) mem, pos)
  else None.

(** [std::vector::erase(first, last)]: [first, last) has to be a range
    of the vector. *)
Definition vec_erase_range (mem : list A) (first last : nat)
  : option (list A * nat) :=
  if (first <=? last) && (last <=? length mem)
  then Some (firstn first mem ++ skipn last mem, first)
  else None.

(** The loop of [std::lower_bound(first, last, value, comp)], with
    [pred nd] standing for [comp] applied to the element under [it]
    and to [value]. *)
Fixpoint search_loop (pred : A -> bool) (n : nat) (mem : list A)
         (first count : nat) : option nat :=
  match n with
  | 0 => Some first
  | S n' =>
      if count =? 0 then Some first
      else
        let step := count / 2 in
        let it := first + step in
        nd <- nth_error mem it ;;
        if pred nd
        then search_loop pred n' mem (S it) (count - (step + 1))
        else search_loop pred n' mem first step
  end.

Definition std_lower_bound (T : Type) (comp : A -> T -> bool)
           (mem : list A) (first last : nat) (value : T) : option nat :=
  search_loop (fun nd => comp nd value) (last - first) mem first (last - first).

(** Three-iterator [std::equal(first1, last1, first2)]: walks the first
    range and reads the second one alongside, without an end for it. *)
Fixpoint std_equal (eqA : A -> A -> bool) (a b : list A) : option bool :=
  match a with
  | [] => Some true
  | x :: a' =>
      match b with
      | [] => None
      | y :: b' => if eqA x y then std_equal eqA a' b' else Some false
      end
  end.

(** [std::min_element] and [std::max_element] with a comparison: offset
    of the first smallest (largest) element; [last] for an empty range. *)
Fixpoint min_element_from (lt : A -> A -> bool) (best : A) (ibest i : nat)
         (l : list A) : nat :=
  match l with
  | [] => ibest
  | x :: l' =>
      if lt x best then min_element_from lt x i (S i) l'
      else min_element_from lt best ibest (S i) l'
  end.

Definition std_min_element (lt : A -> A -> bool) (l : list A) : nat :=
  match l with
  | [] => 0
  | x :: l' => min_element_from lt x 0 1 l'
  end.

Fixpoint max_element_from (lt : A -> A -> bool) (best : A) (ibest i : nat)
         (l : list A) : nat :=
  match l with
  | [] => ibest
  | x :: l' =>
      if lt best x then max_element_from lt x i (S i) l'
      else max_element_from lt best ibest (S i) l'
  end.

Definition std_max_element (lt : A -> A -> bool) (l : list A) : nat :=
  match l with
  | [] => 0
  | x :: l' => max_element_from lt x 0 1 l'
  end.

(** [std::lexicographical_compare(first1, last1, first2, last2)]: the
    first position where one element is less than the other decides; if
    there is none, the first range has to end before the second one. *)
Fixpoint std_lexicographical_compare (lt : A -> A -> bool) (a b : list A)
  : bool :=
  match a, b with
  | _, [] => false
  | [], _ :: _ => true
  | x :: a', y :: b' =>
      if lt x y then true
      else if lt y x then false
      else std_lexicographical_compare lt a' b'
  end.

(** [pred] holds on a prefix of [mem[first, last)] and fails after it. *)
Definition partitioned (pred : A -> bool) (mem : list A) (first last : nat)
  : Prop :=
  forall i j a b, first <= i -> i < j -> j < last ->
    nth_error mem i = Some a -> nth_error mem j = Some b ->
    pred b = true -> pred a = true.

End StdLibrary.

(* ------------------------------------------------------------------ *)
(** ** Calls of function templates                                      *)
(* ------------------------------------------------------------------ *)

(** The names of the template parameters that the function templates of
    [vector_map.h] declare. *)
Module TemplateParameter.

Inductive name : Type := Iter | T.

Definition eqb (a b : name) : bool :=
  match a, b with
  | Iter, Iter => true
  | T, T => true
  | _, _ => false
  end.

End TemplateParameter.

(** The head of a function template: the parameters of its
    [template <...>] clause, none of which has a default, and those of
    them that occur in the types of its function parameters. *)
Record function_template : Type := {
  template_parameters : list TemplateParameter.name;
  in_argument_types : list TemplateParameter.name
}.

(** Template argument deduction for a call that names no template
    argument: every parameter has to occur in a function parameter type. *)
Definition deducible (t : function_template) : bool :=
  forallb (fun p => existsb (TemplateParameter.eqb p) (in_argument_types t))
          (template_parameters t).

(** What becomes of a piece of code when it is instantiated: either it
    is well-formed and denotes [a], or some call in it has no matching
    function and the program is rejected by the compiler. *)
Inductive instantiation (A : Type) : Type :=
| Instantiated (a : A)
| NoMatchingFunction.

Arguments NoMatchingFunction {A}.

(** A call of the template [t] without template arguments, [body] being
    what the selected specialisation computes. *)
Definition call_template {A : Type} (t : function_template) (body : A)
  : instantiation A :=
  if deducible t then Instantiated body else NoMatchingFunction.

(** Code that goes on with the result of an instantiated call. *)
Definition instantiation_map {A B : Type} (f : A -> B) (i : instantiation A)
  : instantiation B :=
  match i with
  | Instantiated a => Instantiated (f a)
  | NoMatchingFunction => NoMatchingFunction
  end.

(* ------------------------------------------------------------------ *)
(** ** [vector_map.h]                                                    *)
(* ------------------------------------------------------------------ *)

Module VectorMap.
Section VectorMap.
Variables K V : Type.
(** [operator<] and [operator==] of [key_type], [operator==] of
    [mapped_type]. *)
Variable ltb : K -> K -> bool.
Variable eqb : K -> K -> bool.
Variable veqb : V -> V -> bool.

Definition value_type : Type := K * V.

(** The two data members.  [comp_] is the [key_compare] object handed to
    the constructor (wrapped in a [value_compare]); it is stored and handed
    back by [key_comp()], and no search reads it: the searches are static
    and compare keys with [operator<]. *)
Record vector_map : Type := make {
  comp_ : K -> K -> bool;
  mem_ : list value_type
}.

Definition with_mem (m : vector_map) (mem : list value_type) : vector_map :=
  {| comp_ := comp_ m; mem_ := mem |}.

(** [vector_map(comp, alloc)] *)
Definition empty_map (comp : K -> K -> bool) : vector_map :=
  {| comp_ := comp; mem_ := [] |}.

Definition begin_ (m : vector_map) : nat := 0.
Definition end_ (m : vector_map) : nat := length (mem_ m).
Definition size (m : vector_map) : nat := length (mem_ m).
Definition empty (m : vector_map) : bool :=
  match mem_ m with [] => true | _ => false end.
Definition key_comp (m : vector_map) : K -> K -> bool := comp_ m.

(** *** The private static searches *)

(** [template <class Iter> static Iter lower_bound(Iter, Iter,
    const key_type&)] *)
Definition lower_bound_template : function_template :=
  {| template_parameters := [TemplateParameter.Iter];
     in_argument_types := [TemplateParameter.Iter] |}.

(** [template <class Iter, class T> static Iter upper_bound(Iter, Iter,
    const key_type&)]: no function parameter mentions [T]. *)
Definition upper_bound_template : function_template :=
  {| template_parameters := [TemplateParameter.Iter; TemplateParameter.T];
     in_argument_types := [TemplateParameter.Iter] |}.

(** [template <class Iter, class T> static std::pair<Iter,Iter>
    equal_range(Iter, Iter, const key_type&)]: the same head. *)
Definition equal_range_template : function_template :=
  {| template_parameters := [TemplateParameter.Iter; TemplateParameter.T];
     in_argument_types := [TemplateParameter.Iter] |}.

Fixpoint lower_bound_loop (n : nat) (mem : list value_type)
         (first count : nat) (key : K) : option nat :=
  match n with
  | 0 => Some first
  | S n' =>
      if count =? 0 then Some first
      else
        let step := count / 2 in
        let it := first + step in
        nd <- nth_error mem it ;;
        if ltb (fst nd) key
        then lower_bound_loop n' mem (S it) (count - (step + 1)) key
        else lower_bound_loop n' mem first step key
  end.

Definition lower_bound_static (mem : list value_type) (first last : nat)
           (key : K) : option nat :=
  lower_bound_loop (last - first) mem first (last - first) key.

Fixpoint upper_bound_loop (n : nat) (mem : list value_type)
         (first count : nat) (key : K) : option nat :=
  match n with
  | 0 => Some first
  | S n' =>
      if count =? 0 then Some first
      else
        let step := count / 2 in
        let it := first + step in
        nd <- nth_error mem it ;;
        if negb (ltb key (fst nd))
        then upper_bound_loop n' mem (S it) (count - (step + 1)) key
        else upper_bound_loop n' mem first step key
  end.

(** The specialisation [upper_bound<Iter, T>] of the static template,
    both template arguments given: the body does not depend on [T]. *)
Definition upper_bound_static (mem : list value_type) (first last : nat)
           (key : K) : option nat :=
  upper_bound_loop (last - first) mem first (last - first) key.

(** The body of the static [equal_range] calls [lower_bound(first, last,
    key)] and [upper_bound(it, last, key)] without template arguments;
    the second call leaves [T] without a value, whatever the arguments
    [equal_range] itself was given. *)
Definition equal_range_static (mem : list value_type) (first last : nat)
           (key : K) : instantiation (option (nat * nat)) :=
  call_template upper_bound_template
    (it <- lower_bound_static mem first last key ;;
     ub <- upper_bound_static mem it last key ;;
     Some (it, ub)).

(** *** The public queries *)

(** [lower_bound(mem_.begin(), mem_.end(), k)]: [Iter] is deduced from
    the iterators. *)
Definition lower_bound (m : vector_map) (k : K) : option nat :=
  lower_bound_static (mem_ m) (begin_ m) (end_ m) k.

(** [upper_bound(mem_.begin(), mem_.end(), k)] *)
Definition upper_bound (m : vector_map) (k : K) : instantiation (option nat) :=
  call_template upper_bound_template
    (upper_bound_static (mem_ m) (begin_ m) (end_ m) k).

(** [equal_range(mem_.begin(), mem_.end(), k)] *)
Definition equal_range (m : vector_map) (k : K)
  : instantiation (option (nat * nat)) :=
  if deducible equal_range_template
  then equal_range_static (mem_ m) (begin_ m) (end_ m) k
  else NoMatchingFunction.

(** [count]: [distance(r.first, r.second)] of [r = equal_range(k)]. *)
Definition count (m : vector_map) (k : K) : instantiation (option nat) :=
  instantiation_map (fun r => r' <- r ;; Some (snd r' - fst r'))
                    (equal_range m k).

(** [find]: the key under the iterator that [lower_bound] returns is read
    before anything is known about that iterator. *)
Definition find (m : vector_map) (k : K) : option nat :=
  it <- lower_bound m k ;;
  nd <- nth_error (mem_ m) it ;;
  Some (if eqb (fst nd) k then it else end_ m).

(** *** Modifiers *)

Definition insert (m : vector_map) (val : value_type)
  : option (vector_map * nat) :=
  pos <- lower_bound m (fst val) ;;
  mem' <- vec_insert (mem_ m) pos val ;;
  Some (with_mem m mem', pos).

(** The loop of [insert(first, last)]; the input range is the list of
    the values it yields, [it] the iterator that is returned. *)
Fixpoint insert_loop (m : vector_map) (it : nat) (input : list value_type)
  : option (vector_map * nat) :=
  match input with
  | [] => Some (m, it)
  | val :: rest => r <- insert m val ;; insert_loop (fst r) (snd r) rest
  end.

Definition insert_range (m : vector_map) (input : list value_type)
  : option (vector_map * nat) :=
  insert_loop m (end_ m) input.

Definition insert_il (m : vector_map) (il : list value_type)
  : option (vector_map * nat) :=
  insert_range m il.

(** [erase(key)]: starts from [equal_range(key)]; after
    [mem_.erase(er.first, er.second)] both iterators of [er] are
    invalidated, and [distance(er.first, er.second)] is taken of them. *)
Definition erase_key (m : vector_map) (key : K)
  : instantiation (option (vector_map * nat)) :=
  instantiation_map
    (fun r => er <- r ;;
              if fst er <? end_ m
              then _ <- vec_erase_range (mem_ m) (fst er) (snd er) ;; None
              else Some (m, 0))
    (equal_range m key).

Definition erase_pos (m : vector_map) (pos : nat) : option (vector_map * nat) :=
  r <- vec_erase (mem_ m) pos ;; Some (with_mem m (fst r), snd r).

Definition erase_range (m : vector_map) (first last : nat)
  : option (vector_map * nat) :=
  r <- vec_erase_range (mem_ m) first last ;; Some (with_mem m (fst r), snd r).

Definition clear (m : vector_map) : vector_map := with_mem m [].

Definition assign (m : vector_map) (input : list value_type)
  : option vector_map :=
  r <- insert_range (clear m) input ;; Some (fst r).

Definition assign_il (m : vector_map) (il : list value_type)
  : option vector_map :=
  assign m il.

(** *** Relational operators *)

(** [operator==] of [std::pair]. *)
Definition pair_eqb (a b : value_type) : bool :=
  eqb (fst a) (fst b) && veqb (snd a) (snd b).

Definition op_eq (a b : vector_map) : option bool :=
  std_equal pair_eqb (mem_ a) (mem_ b).

Definition op_ne (a b : vector_map) : option bool :=
  r <- op_eq a b ;; Some (negb r).

(** *** A run of modifying calls

    The calls of a program that compiles: [erase(key)] is not among
    them. *)

Inductive call : Type :=
| Insert (val : value_type)
| InsertRange (input : list value_type)
| InsertIl (il : list value_type)
| ErasePos (pos : nat)
| EraseRange (first last : nat)
| Assign (input : list value_type)
| AssignIl (il : list value_type)
| Clear.

Definition step (m : vector_map) (c : call) : option vector_map :=
  match c with
  | Insert val => r <- insert m val ;; Some (fst r)
  | InsertRange input => r <- insert_range m input ;; Some (fst r)
  | InsertIl il => r <- insert_il m il ;; Some (fst r)
  | ErasePos pos => r <- erase_pos m pos ;; Some (fst r)
  | EraseRange first last => r <- erase_range m first last ;; Some (fst r)
  | Assign input => assign m input
  | AssignIl il => assign_il m il
  | Clear => Some (clear m)
  end.

Fixpoint run (m : vector_map) (cs : list call) : option vector_map :=
  match cs with
  | [] => Some m
  | c :: cs' => m' <- step m c ;; run m' cs'
  end.

(** The only calls with a precondition are the two positional erases. *)
Definition call_ok (m : vector_map) (c : call) : bool :=
  match c with
  | ErasePos pos => pos <? size m
  | EraseRange first last => (first <=? last) && (last <=? size m)
  | _ => true
  end.

(** *** Order of the stored keys *)

(** [a] may stand before [b]: the key of [b] is not less than that of [a]. *)
Definition key_le (a b : value_type) : bool := negb (ltb (fst b) (fst a)).

Definition is_sorted (m : vector_map) : bool := sortedb key_le (mem_ m).

(** *** Construction, element access and the ordering operators *)

(** [vector_map(il, comp, alloc)] and [vector_map(first, last, comp, alloc)] *)
Definition from_il (comp : K -> K -> bool) (il : list value_type)
  : option vector_map :=
  r <- insert_il (empty_map comp) il ;; Some (fst r).

Definition from_range (comp : K -> K -> bool) (input : list value_type)
  : option vector_map :=
  r <- insert_range (empty_map comp) input ;; Some (fst r).

(** [emplace(args...)] builds the value and inserts it. *)
Definition emplace (m : vector_map) (k : K) (v : V)
  : option (vector_map * nat) :=
  insert m (k, v).

(** [front()] and [back()] of the underlying vector. *)
Definition front (m : vector_map) : option value_type :=
  nth_error (mem_ m) 0.

Definition back (m : vector_map) : option value_type :=
  match length (mem_ m) with
  | 0 => None
  | S i => nth_error (mem_ m) i
  end.

(** [operator<] of [mapped_type]. *)
Variable vltb : V -> V -> bool.

(** [operator<] of [std::pair]. *)
Definition pair_ltb (a b : value_type) : bool :=
  ltb (fst a) (fst b) || (negb (ltb (fst b) (fst a)) && vltb (snd a) (snd b)).

Definition op_lt (a b : vector_map) : bool :=
  std_lexicographical_compare pair_ltb (mem_ a) (mem_ b).

(** [operator<=] : [operator==(a,b) || operator<(a,b)] *)
Definition op_le (a b : vector_map) : option bool :=
  r <- op_eq a b ;; if r then Some true else Some (op_lt a b).

(** [operator>] : [!operator<(a,b)] *)
Definition op_gt (a b : vector_map) : bool := negb (op_lt a b).

(** [operator>=] : [operator==(a,b) || operator>(a,b)] *)
Definition op_ge (a b : vector_map) : option bool :=
  r <- op_eq a b ;; if r then Some true else Some (op_gt a b).

End VectorMap.
End VectorMap.


(* ------------------------------------------------------------------ *)
(** ** [interpolators.h]                                                 *)
(* ------------------------------------------------------------------ *)

Module Interpolator.
Section Interpolator.
(** One arithmetic type for keys, mapped values and arguments, as in
    [interpolating_map<double,double,...>]; its operations are parameters
    and nothing is assumed of them. *)
Variable F : Type.
Variable zero : F.
Variables add sub mul div : F -> F -> F.
Variables ltb leb : F -> F -> bool.
Variable log : F -> F.

Definition node : Type := F * F.

(** [detail::make_fp] on a type that is a floating type already. *)
Definition make_fp (x : F) : F := x.

(** [piecewise_constant::operator()] over the range [nodes]. *)
Definition piecewise_constant_apply (nodes : list node) (x : F) : option F :=
  let n := length nodes in
  if n <? 1 then Some zero
  else if n =? 1 then nd <- nth_error nodes 0 ;; Some (snd nd)
  else
    p <- std_lower_bound (fun (a : node) (x : F) => leb (fst a) x)
                         nodes 0 n x ;;
    if negb (p =? 0)
    then nd <- nth_error nodes (pred p) ;; Some (snd nd)
    else nd <- nth_error nodes p ;; Some (snd nd).

(** The upper end [p1] of the bracket that the two linear strategies use:
    the lower-bound position moved off [begin] and off [end]. *)
Definition clamp (n p : nat) : nat :=
  if p =? 0 then S p
  else if p =? n then pred p
  else p.

(** [piecewise_linear::operator()] *)
Definition piecewise_linear_apply (nodes : list node) (x : F) : option F :=
  let n := length nodes in
  if n <? 1 then Some (make_fp zero)
  else if n =? 1 then nd <- nth_error nodes 0 ;; Some (make_fp (snd nd))
  else
    p <- std_lower_bound (fun (a : node) (x : F) => ltb (fst a) x)
                         nodes 0 n x ;;
    let p1 := clamp n p in
    let p0 := pred p1 in
    n1 <- nth_error nodes p1 ;;
    n0 <- nth_error nodes p0 ;;
    let slope := div (sub (snd n1) (snd n0))
                     (make_fp (sub (fst n1) (fst n0))) in
    Some (add (snd n0) (mul slope (sub x (fst n0)))).

(** [piecewise_log_linear::operator()] *)
Definition piecewise_log_linear_apply (nodes : list node) (x : F) : option F :=
  let n := length nodes in
  if n <? 1 then Some (make_fp zero)
  else if (n =? 1) || leb x zero
  then nd <- nth_error nodes 0 ;; Some (make_fp (snd nd))
  else
    p <- std_lower_bound (fun (a : node) (x : F) => ltb (fst a) x)
                         nodes 0 n x ;;
    let p1 := clamp n p in
    let p0 := pred p1 in
    n1 <- nth_error nodes p1 ;;
    n0 <- nth_error nodes p0 ;;
    let slope := div (sub (snd n1) (snd n0))
                     (log (div (fst n1) (make_fp (fst n0)))) in
    Some (add (snd n0) (mul slope (log (div x (make_fp (fst n0)))))).

(** The three strategy classes; they have no data members. *)
Inductive piecewise_constant : Type := PiecewiseConstant.
Inductive piecewise_linear : Type := PiecewiseLinear.
Inductive piecewise_log_linear : Type := PiecewiseLogLinear.

(** Keys ascending, without and with repetitions excluded. *)
Definition ascending (nodes : list node) : bool :=
  sortedb (fun a b : node => negb (ltb (fst b) (fst a))) nodes.

Definition strictly_ascending (nodes : list node) : bool :=
  sortedb (fun a b : node => ltb (fst a) (fst b)) nodes.

End Interpolator.
End Interpolator.

(* ------------------------------------------------------------------ *)
(** ** [interpolating_map.h]                                             *)
(* ------------------------------------------------------------------ *)

(** What [interpolating_map] asks of its [Interpolator] parameter: a call
    operator taking the node range and the argument. *)
Class InterpolatorCall (K V I : Type) : Type :=
  ipl_call : I -> list (K * V) -> K -> option V.

Module InterpolatingMap.
Section InterpolatingMap.
Variables K V I : Type.
Context {call : InterpolatorCall K V I}.
Variable ltb : K -> K -> bool.
Variable eqb : K -> K -> bool.
Variable veqb : V -> V -> bool.
(** [operator<] of [mapped_type], for the statistics. *)
Variable vltb : V -> V -> bool.

Record interpolating_map : Type := make {
  ipl_ : I;
  nodes_ : VectorMap.vector_map K V
}.

Definition with_nodes (m : interpolating_map) (nodes : VectorMap.vector_map K V)
  : interpolating_map :=
  {| ipl_ := ipl_ m; nodes_ := nodes |}.

(** [interpolating_map(ipl, comp, alloc)] *)
Definition empty_map (ipl : I) (comp : K -> K -> bool) : interpolating_map :=
  {| ipl_ := ipl; nodes_ := VectorMap.empty_map V comp |}.

(** [interpolating_map(first, last, ipl, comp, alloc)] *)
Definition from_range (ipl : I) (comp : K -> K -> bool) (input : list (K * V))
  : option interpolating_map :=
  nodes <- VectorMap.from_range ltb comp input ;;
  Some {| ipl_ := ipl; nodes_ := nodes |}.

(** [operator()]: the strategy over the whole node range. *)
Definition apply (m : interpolating_map) (x : K) : option V :=
  ipl_call (ipl_ m) (VectorMap.mem_ (nodes_ m)) x.

Definition size (m : interpolating_map) : nat := VectorMap.size (nodes_ m).
Definition end_ (m : interpolating_map) : nat := VectorMap.end_ (nodes_ m).

Definition find (m : interpolating_map) (k : K) : option nat :=
  VectorMap.find ltb eqb (nodes_ m) k.

Definition lower_bound (m : interpolating_map) (k : K) : option nat :=
  VectorMap.lower_bound ltb (nodes_ m) k.

Definition upper_bound (m : interpolating_map) (k : K)
  : instantiation (option nat) :=
  VectorMap.upper_bound ltb (nodes_ m) k.

Definition equal_range (m : interpolating_map) (k : K)
  : instantiation (option (nat * nat)) :=
  VectorMap.equal_range ltb (nodes_ m) k.

Definition insert (m : interpolating_map) (val : K * V)
  : option (interpolating_map * nat) :=
  r <- VectorMap.insert ltb (nodes_ m) val ;; Some (with_nodes m (fst r), snd r).

Definition insert_range (m : interpolating_map) (input : list (K * V))
  : option (interpolating_map * nat) :=
  r <- VectorMap.insert_range ltb (nodes_ m) input ;;
  Some (with_nodes m (fst r), snd r).

(** [operator==] and [operator!=] of two [interpolating_map]s. *)
Definition op_eq (a b : interpolating_map) : option bool :=
  std_equal (VectorMap.pair_eqb eqb veqb)
            (VectorMap.mem_ (nodes_ a)) (VectorMap.mem_ (nodes_ b)).

Definition op_ne (a b : interpolating_map) : option bool :=
  r <- op_eq a b ;; Some (negb r).

(** The free functions [min] and [max]: the node of smallest (largest)
    mapped value. *)
Definition min (m : interpolating_map) : option (K * V) :=
  let mem := VectorMap.mem_ (nodes_ m) in
  nth_error mem (std_min_element (fun a b => vltb (snd a) (snd b)) mem).

Definition max (m : interpolating_map) : option (K * V) :=
  let mem := VectorMap.mem_ (nodes_ m) in
  nth_error mem (std_max_element (fun a b => vltb (snd a) (snd b)) mem).

End InterpolatingMap.
End InterpolatingMap.

(* ------------------------------------------------------------------ *)
(** ** [gradients.h]                                                     *)
(* ------------------------------------------------------------------ *)

Module Gradients.
Section Gradients.
Variables Argument Result I : Type.
Context {call : InterpolatorCall Argument Result I}.

Record interpolating_gradient : Type := make {
  map_ : InterpolatingMap.interpolating_map Argument Result I
}.

Definition nodes (g : interpolating_gradient) : list (Argument * Result) :=
  VectorMap.mem_ (InterpolatingMap.nodes_ (map_ g)).

(** The mapped values in storage order. *)
Definition values (g : interpolating_gradient) : list Result :=
  map snd (nodes g).

Definition apply (g : interpolating_gradient) (p : Argument) : option Result :=
  InterpolatingMap.apply (map_ g) p.

(** [min()]: the mapped value under [begin()]. *)
Definition min (g : interpolating_gradient) : option Result :=
  nd <- nth_error (nodes g) 0 ;; Some (snd nd).

(** [max()]: the mapped value under [rbegin()], the last node. *)
Definition max (g : interpolating_gradient) : option Result :=
  match length (nodes g) with
  | 0 => None
  | S i => nd <- nth_error (nodes g) i ;; Some (snd nd)
  end.

Definition size (g : interpolating_gradient) : nat :=
  InterpolatingMap.size (map_ g).

(** [r] is a smallest (largest) element of [vs] under [lt]. *)
Definition is_minimum (lt : Result -> Result -> bool) (vs : list Result)
           (r : Result) : Prop :=
  In r vs /\ forall v, In v vs -> lt v r = false.

Definition is_maximum (lt : Result -> Result -> bool) (vs : list Result)
           (r : Result) : Prop :=
  In r vs /\ forall v, In v vs -> lt r v = false.

End Gradients.
End Gradients.

(* ------------------------------------------------------------------ *)
(** ** Instantiations                                                    *)
(* ------------------------------------------------------------------ *)

(** [vector_map<int,int>] with the default [std::less<int>]. *)
Module IntMap.

Definition map : Type := VectorMap.vector_map Z Z.
Definition less : Z -> Z -> bool := Z.ltb.
Definition empty_map : map := VectorMap.empty_map Z less.

(** Build a map by the initializer-list constructor. *)
Definition of_list (il : list (Z * Z)) : option map :=
  r <- VectorMap.insert_il Z.ltb empty_map il ;; Some (fst r).

(** A run of calls and the map it leaves behind. *)
Definition calls : list (VectorMap.call Z Z) :=
  [VectorMap.Insert (3, 30); VectorMap.Insert (1, 10);
   VectorMap.InsertRange [(2, 20); (1, 11); (2, 21)];
   VectorMap.ErasePos Z Z 4; VectorMap.ErasePos Z Z 0;
   VectorMap.InsertIl [(5, 50); (4, 40)];
   VectorMap.EraseRange Z Z 1 2]%Z.

Definition after_calls : map :=
  VectorMap.make less [(1, 10); (2, 20); (4, 40); (5, 50)]%Z.

(** A map with three nodes of key 2, as [of_list] leaves them. *)
Definition with_duplicates : map :=
  VectorMap.make less [(1, 10); (2, 22); (2, 21); (2, 20); (3, 30)]%Z.

End IntMap.

(** The templates instantiated at a rational number type [Q] for keys,
    mapped values and arguments: a type that is not built in, for which
    [make_fp] forwards its argument, and whose arithmetic is exact.  This
    is not the instantiation at [double]: there every operation rounds,
    and a result computed here is the result of the [double] code only up
    to that rounding.  Nothing below is said of rounding. *)
Module Rat.

Definition ltb (a b : Q) : bool := negb (Qle_bool b a).
Definition leb (a b : Q) : bool := Qle_bool a b.
Definition eqb (a b : Q) : bool := Qeq_bool a b.

Definition piecewise_constant_apply : list (Q * Q) -> Q -> option Q :=
  Interpolator.piecewise_constant_apply 0%Q leb.

Definition piecewise_linear_apply : list (Q * Q) -> Q -> option Q :=
  Interpolator.piecewise_linear_apply 0%Q Qplus Qminus Qmult Qdiv ltb.

Definition piecewise_log_linear_apply (log : Q -> Q)
  : list (Q * Q) -> Q -> option Q :=
  Interpolator.piecewise_log_linear_apply 0%Q Qplus Qminus Qmult Qdiv ltb leb log.


#[export] Instance linear_call
  : InterpolatorCall Q Q Interpolator.piecewise_linear :=
  fun _ => piecewise_linear_apply.

(** [piecewise_linear_map<Q,Q>], [linear_gradient<Q,Q>] and
    [step_gradient<Q,Q>]. *)
Definition piecewise_linear_map : Type :=
  InterpolatingMap.interpolating_map Q Q Interpolator.piecewise_linear.

Definition linear_gradient : Type :=
  Gradients.interpolating_gradient Q Q Interpolator.piecewise_linear.

Definition step_gradient : Type :=
  Gradients.interpolating_gradient Q Q Interpolator.piecewise_constant.

(** [linear_gradient<Q,Q>{il}]: the arguments are forwarded to
    the constructor of the map, which inserts the initializer list. *)
Definition linear_gradient_il (il : list (Q * Q)) : option linear_gradient :=
  r <- VectorMap.insert_il ltb (VectorMap.empty_map Q ltb) il ;;
  Some (Gradients.make
          (InterpolatingMap.make Interpolator.PiecewiseLinear (fst r))).

(** Stand-in for [log] where no logarithm is taken. *)
Definition log_unused (x : Q) : Q := x.

(** An arbitrary function in the place of [log], which the rationals do
    not have. *)
Definition some_log (x : Q) : Q := x.


(** [20.12], [-1.4], [9.9] and [1123.54]. *)
Definition q20_12 : Q := 2012 # 100.
Definition qm1_4 : Q := -14 # 10.
Definition q9_9 : Q := 99 # 10.
Definition q1123_54 : Q := 112354 # 100.

(** The node set of the tests. *)
Definition nodes2dbl : list (Q * Q) := [(1, 1); (10, 10)]%Q.

End Rat.


(* ================================================================== *)
(** * Properties                                                        *)
(* ================================================================== *)

Unset Implicit Arguments.

(* ------------------------------------------------------------------ *)
(** ** Strict weak orderings                                            *)
(* ------------------------------------------------------------------ *)

Lemma ltb_asym {K} (ltb : K -> K -> bool) `{!StrictWeakOrder ltb} a b :
  ltb a b = true -> ltb b a = false.
Proof.
  intros Hab. destruct (ltb b a) eqn:Hba; trivial.
  pose proof (ltb_trans a b a Hab Hba) as Haa.
  rewrite ltb_irrefl in Haa. discriminate.
Qed.

(** "not greater" is transitive for a strict weak ordering. *)
Lemma nlt_trans {K} (ltb : K -> K -> bool) `{!StrictWeakOrder ltb} a b c :
  ltb b a = false -> ltb c b = false -> ltb c a = false.
Proof.
  intros Hba Hcb. destruct (ltb c a) eqn:Hca; trivial.
  destruct (ltb_negtrans c b a Hca) as [H | H]; congruence.
Qed.

(* ------------------------------------------------------------------ *)
(** ** Sorted sequences                                                 *)
(* ------------------------------------------------------------------ *)

Section SortednessFacts.
Variable A : Type.
Variable le : A -> A -> bool.
Hypothesis le_trans :
  forall a b c, le a b = true -> le b c = true -> le a c = true.

Lemma ordered_nil : ordered le [].
Proof. intros i j a b _ H. destruct i; discriminate. Qed.

Lemma ordered_cons x l :
  ordered le (x :: l) <->
  (forall b, In b l -> le x b = true) /\ ordered le l.
Proof.
  split.
  - intros H. split.
    + intros b Hb. apply In_nth_error in Hb. destruct Hb as [j Hj].
      apply (H 0 (S j) x b); [lia | reflexivity | exact Hj].
    + intros i j a b Hij Hi Hj.
      apply (H (S i) (S j) a b); [lia | exact Hi | exact Hj].
  - intros [Hx Hl] i j a b Hij Hi Hj.
    destruct j as [| j]; [lia |]. simpl in Hj.
    destruct i as [| i]; simpl in Hi.
    + inversion Hi; subst. apply Hx. eapply nth_error_In; eauto.
    + apply (Hl i j a b); [lia | assumption | assumption].
Qed.

Lemma sortedb_ordered l : sortedb le l = true <-> ordered le l.
Proof.
  induction l as [| x l IH].
  - split; [intros _; apply ordered_nil | reflexivity].
  - rewrite ordered_cons. destruct l as [| y l].
    + split; [| reflexivity]. intros _. split; [intros b [] | apply ordered_nil].
    + change (sortedb le (x :: y :: l)) with (le x y && sortedb le (y :: l)).
      rewrite andb_true_iff, IH. split.
      * intros [Hxy Hl]. split; [| exact Hl].
        intros b [<- | Hb]; [exact Hxy |].
        apply ordered_cons in Hl. destruct Hl as [Hy _].
        eapply le_trans; [exact Hxy | apply Hy, Hb].
      * intros [Hx Hl]. split; [apply Hx; left; reflexivity | exact Hl].
Qed.

Lemma ordered_app l1 l2 :
  ordered le (l1 ++ l2) <->
  ordered le l1 /\ ordered le l2 /\
  (forall a b, In a l1 -> In b l2 -> le a b = true).
Proof.
  induction l1 as [| x l1 IH]; simpl.
  - split; [intros H; repeat split; [apply ordered_nil | exact H | intros a b []]
           | intros (_ & H & _); exact H].
  - rewrite !ordered_cons, IH. split.
    + intros (Hx & H1 & H2 & H12). repeat split; trivial.
      * intros b Hb. apply Hx, in_or_app. left; exact Hb.
      * intros a b [<- | Ha] Hb; [apply Hx, in_or_app; right; exact Hb |].
        apply H12; assumption.
    + intros ((Hx & H1) & H2 & H12). repeat split; trivial.
      * intros b Hb. apply in_app_or in Hb. destruct Hb as [Hb | Hb].
        -- apply Hx, Hb.
        -- apply H12; [left; reflexivity | exact Hb].
      * intros a b Ha Hb. apply H12; [right; exact Ha | exact Hb].
Qed.

End SortednessFacts.

(* ------------------------------------------------------------------ *)
(** ** What the search loop computes                                    *)
(* ------------------------------------------------------------------ *)

Section SearchFacts.
Variable A : Type.
Variable pred : A -> bool.


Lemma search_loop_total n : forall mem first count,
    count <= n -> first + count <= length mem ->
    exists p, search_loop pred n mem first count = Some p /\
              first <= p <= first + count.
Proof.
  induction n as [| n IH]; intros mem first count Hn Hlen; cbn [search_loop].
  - exists first. split; [reflexivity | lia].
  - destruct (Nat.eqb_spec count 0) as [-> | Hc].
    + exists first. split; [reflexivity | lia].
    + assert (Hstep : count / 2 < count) by (apply Nat.div_lt; lia).
      destruct (nth_error mem (first + count / 2)) as [nd |] eqn:Hnd.
      2:{ apply nth_error_None in Hnd. lia. }
      cbn [bind]. destruct (pred nd).
      * destruct (IH mem (S (first + count / 2)) (count - (count / 2 + 1)))
          as (p & Hp & Hb); [lia | lia |].
        exists p. split; [exact Hp | lia].
      * destruct (IH mem first (count / 2)) as (p & Hp & Hb); [lia | lia |].
        exists p. split; [exact Hp | lia].
Qed.

Lemma search_loop_partition n : forall mem first count p,
    count <= n ->
    partitioned pred mem first (first + count) ->
    search_loop pred n mem first count = Some p ->
    (forall i a, first <= i < p -> nth_error mem i = Some a -> pred a = true) /\
    (forall i a, p <= i < first + count ->
                 nth_error mem i = Some a -> pred a = false).
Proof.
  induction n as [| n IH]; intros mem first count p Hn Hpart; cbn [search_loop].
  - intros [= <-]. split; intros i a Hi; lia.
  - destruct (Nat.eqb_spec count 0) as [-> | Hc].
    + intros [= <-]. split; intros i a Hi; lia.
    + assert (Hstep : count / 2 < count) by (apply Nat.div_lt; lia).
      destruct (nth_error mem (first + count / 2)) as [nd |] eqn:Hnd;
        cbn [bind]; [| discriminate].
      destruct (pred nd) eqn:Hpnd; intros Hloop.
      * apply IH in Hloop; [| lia |].
        2:{ intros i j a b Hi Hij Hj. apply Hpart; lia. }
        destruct Hloop as [Hlo Hhi]. split.
        -- intros i a Hi Ha.
           destruct (Nat.lt_ge_cases i (S (first + count / 2))) as [Hlt | Hge].
           ++ destruct (Nat.eq_dec i (first + count / 2)) as [-> | Hne].
              ** congruence.
              ** apply (Hpart i (first + count / 2) a nd); trivial; lia.
           ++ apply (Hlo i); [lia | exact Ha].
        -- intros i a Hi Ha. apply (Hhi i); [lia | exact Ha].
      * apply IH in Hloop; [| lia |].
        2:{ intros i j a b Hi Hij Hj. apply Hpart; lia. }
        destruct Hloop as [Hlo Hhi]. split.
        -- exact Hlo.
        -- intros i a Hi Ha.
           destruct (Nat.lt_ge_cases i (first + count / 2)) as [Hlt | Hge].
           ++ apply (Hhi i); [lia | exact Ha].
           ++ destruct (Nat.eq_dec i (first + count / 2)) as [-> | Hne].
              ** congruence.
              ** destruct (pred a) eqn:Hpa; trivial.
                 assert (pred nd = true) as Hnd'
                   by (apply (Hpart (first + count / 2) i nd a); trivial; lia).
                 congruence.
Qed.

(** The result of a search is pinned down by the two properties above. *)
Lemma partition_point_unique (mem : list A) (last p q : nat) :
  p <= last -> q <= last -> last <= length mem ->
  (forall i a, i < p -> nth_error mem i = Some a -> pred a = true) ->
  (forall i a, p <= i < last -> nth_error mem i = Some a -> pred a = false) ->
  (forall i a, i < q -> nth_error mem i = Some a -> pred a = true) ->
  (forall i a, q <= i < last -> nth_error mem i = Some a -> pred a = false) ->
  p = q.
Proof.
  intros Hp Hq Hlen Hp1 Hp2 Hq1 Hq2.
  destruct (Nat.lt_trichotomy p q) as [Hlt | [Heq | Hgt]]; trivial.
  - destruct (nth_error mem p) as [a |] eqn:Ha.
    + pose proof (Hp2 p a ltac:(lia) Ha). pose proof (Hq1 p a Hlt Ha). congruence.
    + apply nth_error_None in Ha. lia.
  - destruct (nth_error mem q) as [a |] eqn:Ha.
    + pose proof (Hq2 q a ltac:(lia) Ha). pose proof (Hp1 q a Hgt Ha). congruence.
    + apply nth_error_None in Ha. lia.
Qed.

End SearchFacts.

(* ------------------------------------------------------------------ *)
(** ** [vector_map]: the searches                                       *)
(* ------------------------------------------------------------------ *)

Module VectorMapFacts.
Import VectorMap.

(** Linear arithmetic over sizes and iterators. *)
Ltac vlia := unfold size, end_, begin_, value_type in *; simpl in *; lia.

Section Searches.
Variables K V : Type.
Variable ltb : K -> K -> bool.
Context {ltb_order : StrictWeakOrder ltb}.

Local Abbreviation vmap := (vector_map K V).
Local Abbreviation key_le := (key_le (V:=V) ltb).

(** Both static loops are the library loop with their own test. *)
Lemma lower_bound_loop_search key n : forall (mem : list (K * V)) first count,
    lower_bound_loop ltb n mem first count key =
    search_loop (fun nd => ltb (fst nd) key) n mem first count.
Proof.
  induction n as [| n IH]; intros mem first count;
    cbn [lower_bound_loop search_loop]; trivial.
  cbv zeta. unfold value_type. destruct (count =? 0); trivial.
  destruct (nth_error mem (first + count / 2)); cbn [bind]; trivial.
  rewrite !IH. reflexivity.
Qed.

Lemma upper_bound_loop_search key n : forall (mem : list (K * V)) first count,
    upper_bound_loop ltb n mem first count key =
    search_loop (fun nd => negb (ltb key (fst nd))) n mem first count.
Proof.
  induction n as [| n IH]; intros mem first count;
    cbn [upper_bound_loop search_loop]; trivial.
  cbv zeta. unfold value_type. destruct (count =? 0); trivial.
  destruct (nth_error mem (first + count / 2)); cbn [bind]; trivial.
  rewrite !IH. reflexivity.
Qed.

(** On a sorted sequence both tests hold on a prefix only. *)
Lemma sorted_partitioned_lt (mem : list (K * V)) key first last :
  ordered key_le mem ->
  partitioned (fun nd => ltb (fst nd) key) mem first last.
Proof.
  intros Hord i j a b _ Hij _ Ha Hb Hlt.
  pose proof (Hord i j a b Hij Ha Hb) as Hab.
  unfold VectorMap.key_le in Hab. apply negb_true_iff in Hab.
  destruct (ltb_negtrans (fst b) (fst a) key Hlt) as [H | H]; congruence.
Qed.

Lemma sorted_partitioned_ngt (mem : list (K * V)) key first last :
  ordered key_le mem ->
  partitioned (fun nd => negb (ltb key (fst nd))) mem first last.
Proof.
  intros Hord i j a b _ Hij _ Ha Hb Hngt.
  pose proof (Hord i j a b Hij Ha Hb) as Hab.
  unfold VectorMap.key_le in Hab. apply negb_true_iff in Hab.
  apply negb_true_iff in Hngt. apply negb_true_iff.
  destruct (ltb key (fst a)) eqn:Hka; trivial.
  destruct (ltb_negtrans key (fst b) (fst a) Hka) as [H | H]; congruence.
Qed.

Lemma key_le_trans (a b c : K * V) :
  key_le a b = true -> key_le b c = true -> key_le a c = true.
Proof.
  unfold VectorMap.key_le. rewrite !negb_true_iff. intros Hab Hbc.
  exact (nlt_trans ltb (fst a) (fst b) (fst c) Hab Hbc).
Qed.

Lemma is_sorted_ordered (m : vmap) :
  is_sorted ltb m = true <-> ordered key_le (mem_ m).
Proof. apply sortedb_ordered. exact key_le_trans. Qed.

Lemma sorted_is_ordered (m : vmap) :
  is_sorted ltb m = true -> ordered key_le (mem_ m).
Proof. apply is_sorted_ordered. Qed.

Lemma ordered_is_sorted (m : vmap) :
  ordered key_le (mem_ m) -> is_sorted ltb m = true.
Proof. apply is_sorted_ordered. Qed.

(** The static searches return for every range of the vector. *)
Lemma lower_bound_static_total (mem : list (K * V)) first last key :
  first <= last <= length mem ->
  exists p, lower_bound_static ltb mem first last key = Some p /\
            first <= p <= last.
Proof.
  intros H. unfold lower_bound_static. rewrite lower_bound_loop_search.
  destruct (search_loop_total _ (fun nd : K * V => ltb (fst nd) key)
              (last - first) mem first (last - first))
    as (p & Hp & Hb); [lia | lia |].
  exists p. split; [exact Hp | lia].
Qed.

Lemma upper_bound_static_total (mem : list (K * V)) first last key :
  first <= last <= length mem ->
  exists p, upper_bound_static ltb mem first last key = Some p /\
            first <= p <= last.
Proof.
  intros H. unfold upper_bound_static. rewrite upper_bound_loop_search.
  destruct (search_loop_total _ (fun nd : K * V => negb (ltb key (fst nd)))
              (last - first) mem first (last - first))
    as (p & Hp & Hb); [lia | lia |].
  exists p. split; [exact Hp | lia].
Qed.

(** [lower_bound] never fails and stays within [begin, end]. *)
Lemma lower_bound_total (m : vmap) k :
  exists p, lower_bound ltb m k = Some p /\ p <= size m.
Proof.
  destruct (lower_bound_static_total (mem_ m) 0 (length (mem_ m)) k)
    as (p & Hp & Hb); [vlia |].
  exists p. split; [exact Hp | exact (proj2 Hb)].
Qed.

(** On a sorted map [lower_bound k] is the first position whose key is
    not less than [k]: the keys in front of it, and no others, are less. *)
Lemma lower_bound_spec (m : vmap) k :
  is_sorted ltb m = true ->
  exists p, lower_bound ltb m k = Some p /\ p <= size m /\
    forall i nd, nth_error (mem_ m) i = Some nd ->
                 (i < p <-> ltb (fst nd) k = true).
Proof.
  intros Hs. apply is_sorted_ordered in Hs.
  destruct (lower_bound_total m k) as (p & Hp & Hb).
  exists p. split; [exact Hp |]. split; [exact Hb |].
  unfold lower_bound, lower_bound_static, begin_, end_ in Hp.
  rewrite lower_bound_loop_search, Nat.sub_0_r in Hp.
  apply search_loop_partition in Hp;
    [| lia | apply sorted_partitioned_lt; exact Hs].
  destruct Hp as [Hlo Hhi]. intros i nd Hnd. split.
  - intros Hi. apply (Hlo i); [lia | exact Hnd].
  - intros Hlt. destruct (Nat.lt_ge_cases i p) as [| Hge]; trivial.
    assert (i < length (mem_ m)) by (apply nth_error_Some; congruence).
    rewrite (Hhi i nd) in Hlt; [discriminate | simpl; lia | exact Hnd].
Qed.

(** On a sorted map the static [upper_bound<Iter, T>(begin, end, k)] is
    the first position whose key is greater than [k]. *)
Lemma upper_bound_spec (m : vmap) k :
  is_sorted ltb m = true ->
  exists p, upper_bound_static ltb (mem_ m) (begin_ m) (end_ m) k = Some p /\
    p <= size m /\
    forall i nd, nth_error (mem_ m) i = Some nd ->
                 (i < p <-> ltb k (fst nd) = false).
Proof.
  intros Hs. apply is_sorted_ordered in Hs.
  destruct (upper_bound_static_total (mem_ m) 0 (length (mem_ m)) k)
    as (p & Hp & Hb); [vlia |].
  exists p. split; [exact Hp |]. split; [exact (proj2 Hb) |].
  unfold upper_bound_static in Hp.
  rewrite upper_bound_loop_search, Nat.sub_0_r in Hp.
  apply search_loop_partition in Hp;
    [| lia | apply sorted_partitioned_ngt; exact Hs].
  destruct Hp as [Hlo Hhi]. intros i nd Hnd. split.
  - intros Hi. apply negb_true_iff. apply (Hlo i nd); [lia | exact Hnd].
  - intros Hlt. destruct (Nat.lt_ge_cases i p) as [| Hge]; trivial.
    assert (i < length (mem_ m)) by (apply nth_error_Some; congruence).
    pose proof (Hhi i nd ltac:(simpl; lia) Hnd) as Hf.
    apply negb_false_iff in Hf. congruence.
Qed.

(** [lower_bound k] never lies behind that position. *)
Lemma lower_le_upper (m : vmap) k lb ub :
  is_sorted ltb m = true ->
  lower_bound ltb m k = Some lb ->
  upper_bound_static ltb (mem_ m) (begin_ m) (end_ m) k = Some ub -> lb <= ub.
Proof.
  intros Hs Hlb Hub.
  destruct (lower_bound_spec m k Hs) as (lb' & Hlb' & Hlbb & Hlbs).
  destruct (upper_bound_spec m k Hs) as (ub' & Hub' & Hubb & Hubs).
  assert (lb' = lb) by congruence. assert (ub' = ub) by congruence. subst.
  destruct (Nat.le_gt_cases lb ub) as [| Hgt]; trivial.
  destruct (nth_error (mem_ m) ub) as [nd |] eqn:Hnd.
  - pose proof (proj1 (Hlbs ub nd Hnd) Hgt) as Hlt.
    apply (ltb_asym ltb) in Hlt. apply (Hubs ub nd Hnd) in Hlt. lia.
  - apply nth_error_None in Hnd. vlia.
Qed.

(** Searching for the upper bound from the lower bound on finds the same
    position as searching from [begin]. *)
Lemma upper_bound_from_lower_bound (m : vmap) k lb ub :
  is_sorted ltb m = true ->
  lower_bound ltb m k = Some lb ->
  upper_bound_static ltb (mem_ m) (begin_ m) (end_ m) k = Some ub ->
  upper_bound_static ltb (mem_ m) lb (end_ m) k = Some ub.
Proof.
  intros Hs Hlb Hub.
  pose proof (lower_le_upper m k lb ub Hs Hlb Hub) as Hle.
  destruct (lower_bound_spec m k Hs) as (lb' & Hlb' & Hlbb & Hlbs).
  destruct (upper_bound_spec m k Hs) as (ub' & Hub' & Hubb & Hubs).
  assert (lb' = lb) by congruence. assert (ub' = ub) by congruence. subst.
  destruct (upper_bound_static_total (mem_ m) lb (end_ m) k)
    as (q & Hq & Hqb); [vlia |].
  rewrite Hq. f_equal.
  unfold upper_bound_static in Hq. rewrite upper_bound_loop_search in Hq.
  apply search_loop_partition in Hq;
    [| lia | apply sorted_partitioned_ngt, sorted_is_ordered, Hs].
  destruct Hq as [Hlo Hhi].
  apply (partition_point_unique _ (fun nd : K * V => negb (ltb k (fst nd)))
           (mem_ m) (end_ m)); try vlia.
  - intros i a Hi Ha. destruct (Nat.lt_ge_cases i lb) as [Hlt | Hge].
    + apply negb_true_iff, (ltb_asym ltb), (Hlbs i a Ha), Hlt.
    + apply (Hlo i); [lia | exact Ha].
  - intros i a Hi Ha. apply (Hhi i); [vlia | exact Ha].
  - intros i a Hi Ha. apply negb_true_iff, (Hubs i a Ha), Hi.
  - intros i a Hi Ha. apply negb_false_iff.
    destruct (ltb k (fst a)) eqn:Hka; trivial.
    apply (Hubs i a Ha) in Hka. lia.
Qed.

(** The lower bound and the position that the static [upper_bound]
    computes on a sorted map, in one statement. *)
Lemma bounds_characterised (m : vmap) k :
  is_sorted ltb m = true ->
  exists lb ub,
    lower_bound ltb m k = Some lb /\
    upper_bound_static ltb (mem_ m) (begin_ m) (end_ m) k = Some ub /\
    upper_bound_static ltb (mem_ m) lb (end_ m) k = Some ub /\
    lb <= ub <= size m /\
    forall i nd, nth_error (mem_ m) i = Some nd ->
      (i < lb <-> ltb (fst nd) k = true) /\
      (i < ub <-> ltb k (fst nd) = false) /\
      (lb <= i < ub <-> key_equiv ltb (fst nd) k).
Proof.
  intros Hs.
  destruct (lower_bound_spec m k Hs) as (lb & Hlb & _ & Hlbs).
  destruct (upper_bound_spec m k Hs) as (ub & Hub & Hubb & Hubs).
  pose proof (lower_le_upper m k lb ub Hs Hlb Hub) as Hle.
  exists lb, ub. split; [exact Hlb |]. split; [exact Hub |].
  split; [apply upper_bound_from_lower_bound; assumption |].
  split; [lia |].
  intros i nd Hnd. split; [apply Hlbs, Hnd |]. split; [apply Hubs, Hnd |].
  pose proof (Hlbs i nd Hnd) as H1. pose proof (Hubs i nd Hnd) as H2.
  unfold key_equiv. split.
  - intros [Hge Hlt]. split; [| apply H2, Hlt].
    destruct (ltb (fst nd) k) eqn:E; trivial.
    pose proof (proj2 H1 eq_refl). lia.
  - intros [Hn1 Hn2]. split; [| apply H2, Hn2].
    destruct (Nat.le_gt_cases lb i) as [| Hgt]; trivial.
    apply H1 in Hgt. congruence.
Qed.

End Searches.

(* ------------------------------------------------------------------ *)
(** ** [vector_map::find]                                               *)
(* ------------------------------------------------------------------ *)

Section Find.
Variables K V : Type.
Variable ltb : K -> K -> bool.
Variable eqb : K -> K -> bool.

Local Abbreviation vmap := (vector_map K V).

(** What [find] does with the iterator it gets from [lower_bound]:
    where that iterator points at a node the answer is the iterator or
    [end()], depending on the node's key; where it is [end()] itself the
    read of its key is outside the vector. *)
Lemma find_cases (m : vmap) (k : K) :
  exists it, lower_bound ltb m k = Some it /\ it <= size m /\
    (it = size m -> find ltb eqb m k = None) /\
    (forall nd, nth_error (mem_ m) it = Some nd ->
        find ltb eqb m k = Some (if eqb (fst nd) k then it else end_ m)).
Proof.
  destruct (lower_bound_static_total K V ltb (mem_ m) 0 (length (mem_ m)) k)
    as (it & Hit & Hb); [vlia |].
  exists it. split; [exact Hit |]. split; [exact (proj2 Hb) |].
  unfold find, lower_bound, begin_, end_. rewrite Hit. cbn [bind]. split.
  - intros ->. unfold size.
    rewrite (proj2 (nth_error_None (mem_ m) (length (mem_ m))));
      [reflexivity | lia].
  - intros nd ->. reflexivity.
Qed.

(** A key greater than every stored key sends [lower_bound] to [end()],
    and [find] reads there. *)
Lemma find_beyond_last_key (m : vmap) (k : K) :
  (forall nd, In nd (mem_ m) -> ltb (fst nd) k = true) ->
  lower_bound ltb m k = Some (end_ m) /\ find ltb eqb m k = None.
Proof.
  intros Hall.
  destruct (find_cases m k) as (it & Hit & Hb & Hend & _).
  assert (it = size m) as ->; [| split; [exact Hit | apply Hend; reflexivity]].
  unfold lower_bound, lower_bound_static, begin_, end_ in Hit.
  rewrite lower_bound_loop_search, Nat.sub_0_r in Hit.
  apply search_loop_partition in Hit; [| lia |].
  - destruct Hit as [_ Hhi].
    destruct (nth_error (mem_ m) it) as [nd |] eqn:Hnd.
    + assert (it < length (mem_ m)) by (apply nth_error_Some; congruence).
      pose proof (Hhi it nd ltac:(simpl; lia) Hnd) as Hf.
      rewrite (Hall nd) in Hf; [discriminate | eapply nth_error_In; eauto].
    + apply nth_error_None in Hnd. vlia.
  - intros i j a b _ _ _ Ha _ _. apply Hall. eapply nth_error_In; eauto.
Qed.

End Find.
(* ------------------------------------------------------------------ *)
(** ** [vector_map]: the modifiers keep the keys sorted                 *)
(* ------------------------------------------------------------------ *)

Section Modifiers.
Variables K V : Type.
Variable ltb : K -> K -> bool.
Context {ltb_order : StrictWeakOrder ltb}.

Local Abbreviation vmap := (vector_map K V).
Local Abbreviation key_le := (key_le (V:=V) ltb).

Lemma In_firstn_nth (mem : list (K * V)) p a :
  In a (firstn p mem) -> exists i, i < p /\ nth_error mem i = Some a.
Proof.
  intros Ha. apply In_nth_error in Ha. destruct Ha as [i Hi].
  rewrite nth_error_firstn in Hi. exists i.
  destruct (Nat.ltb_spec i p); [split; assumption | discriminate].
Qed.

Lemma In_skipn_nth (mem : list (K * V)) p a :
  In a (skipn p mem) -> exists i, p <= i /\ nth_error mem i = Some a.
Proof.
  intros Ha. apply In_nth_error in Ha. destruct Ha as [i Hi].
  rewrite nth_error_skipn in Hi. exists (p + i). split; [lia | exact Hi].
Qed.

Lemma ordered_skipn (mem : list (K * V)) n :
  ordered key_le mem -> ordered key_le (skipn n mem).
Proof.
  intros H. rewrite <- (firstn_skipn n mem) in H.
  apply ordered_app in H. tauto.
Qed.

(** Putting a value where the keys stop being less than its own key keeps
    a sorted vector sorted. *)
Lemma ordered_insert (mem : list (K * V)) p val :
  ordered key_le mem ->
  (forall i nd, nth_error mem i = Some nd ->
                (i < p <-> ltb (fst nd) (fst val) = true)) ->
  ordered key_le (firstn p mem ++ val :: skipn p mem).
Proof.
  intros Hord Hp.
  pose proof Hord as Hsplit. rewrite <- (firstn_skipn p mem) in Hsplit.
  apply ordered_app in Hsplit. destruct Hsplit as (H1 & H2 & H12).
  apply ordered_app. split; [exact H1 |]. split.
  - apply ordered_cons. split; [| exact H2].
    intros b Hb. apply In_skipn_nth in Hb. destruct Hb as (i & Hi & Hb).
    unfold VectorMap.key_le. apply negb_true_iff.
    destruct (ltb (fst b) (fst val)) eqn:Hlt; trivial.
    apply (Hp i b Hb) in Hlt. lia.
  - intros a b Ha [<- | Hb]; [| apply H12; assumption].
    apply In_firstn_nth in Ha. destruct Ha as (i & Hi & Ha).
    unfold VectorMap.key_le. apply negb_true_iff, (ltb_asym ltb).
    apply (Hp i a Ha), Hi.
Qed.

(** Taking a range out of a sorted vector leaves it sorted. *)
Lemma ordered_erase (mem : list (K * V)) first last :
  first <= last -> ordered key_le mem ->
  ordered key_le (firstn first mem ++ skipn last mem).
Proof.
  intros Hle Hord.
  pose proof Hord as Hsplit. rewrite <- (firstn_skipn first mem) in Hsplit.
  apply ordered_app in Hsplit. destruct Hsplit as (H1 & H2 & H12).
  replace last with ((last - first) + first) by lia.
  rewrite <- skipn_skipn.
  apply ordered_app. split; [exact H1 |]. split.
  - apply ordered_skipn, H2.
  - intros a b Ha Hb. apply H12; [exact Ha |].
    rewrite <- (firstn_skipn (last - first) (skipn first mem)).
    apply in_or_app. right. exact Hb.
Qed.

(** [insert] always succeeds, and puts the value at [lower_bound] of its
    key. *)
Lemma insert_defined (m : vmap) (val : K * V) :
  exists p, lower_bound ltb m (fst val) = Some p /\ p <= size m /\
    insert ltb m val =
    Some (with_mem m (firstn p (mem_ m) ++ val :: skipn p (mem_ m)), p).
Proof.
  destruct (lower_bound_total K V ltb m (fst val)) as (p & Hp & Hb).
  exists p. split; [exact Hp |]. split; [exact Hb |].
  unfold insert. rewrite Hp. cbn [bind]. unfold vec_insert.
  destruct (Nat.leb_spec p (length (mem_ m))) as [_ | Hgt]; [reflexivity |].
  vlia.
Qed.

Lemma insert_sorted (m : vmap) val r :
  is_sorted ltb m = true -> insert ltb m val = Some r ->
  is_sorted ltb (fst r) = true.
Proof.
  intros Hs Hr.
  destruct (insert_defined m val) as (p & Hp & Hb & Hins).
  rewrite Hins in Hr. injection Hr as <-. cbn [fst].
  destruct (lower_bound_spec K V ltb m (fst val) Hs) as (p' & Hp' & _ & Hspec).
  assert (p' = p) as -> by congruence.
  apply (ordered_is_sorted K V ltb). cbn [with_mem mem_].
  apply ordered_insert; [apply (sorted_is_ordered K V ltb), Hs | exact Hspec].
Qed.

Lemma insert_loop_sorted input : forall (m : vmap) it r,
  is_sorted ltb m = true -> insert_loop ltb m it input = Some r ->
  is_sorted ltb (fst r) = true.
Proof.
  induction input as [| val rest IH]; intros m it r Hs; cbn [insert_loop].
  - intros [= <-]. exact Hs.
  - destruct (insert ltb m val) as [r' |] eqn:Hr'; cbn [bind]; [| discriminate].
    apply IH. eapply insert_sorted; eauto.
Qed.

Lemma insert_loop_defined input : forall (m : vmap) it,
  exists r, insert_loop ltb m it input = Some r.
Proof.
  induction input as [| val rest IH]; intros m it; cbn [insert_loop].
  - eexists; reflexivity.
  - destruct (insert_defined m val) as (p & _ & _ & ->). cbn [bind]. apply IH.
Qed.

Lemma empty_sorted (m : vmap) : is_sorted ltb (clear m) = true.
Proof. reflexivity. Qed.

Lemma vec_erase_range_sorted (m : vmap) first last r :
  is_sorted ltb m = true ->
  vec_erase_range (mem_ m) first last = Some r ->
  is_sorted ltb (with_mem m (fst r)) = true.
Proof.
  intros Hs. unfold vec_erase_range.
  destruct (Nat.leb_spec first last); cbn [andb]; [| discriminate].
  destruct (last <=? length (mem_ m)); [| discriminate].
  intros [= <-]. apply (ordered_is_sorted K V ltb).
  apply (ordered_erase (mem_ m) first last);
    [assumption | apply (sorted_is_ordered K V ltb), Hs].
Qed.

Lemma vec_erase_sorted (m : vmap) pos r :
  is_sorted ltb m = true ->
  vec_erase (mem_ m) pos = Some r ->
  is_sorted ltb (with_mem m (fst r)) = true.
Proof.
  intros Hs. unfold vec_erase.
  destruct (pos <? length (mem_ m)); [| discriminate].
  intros [= <-]. apply (ordered_is_sorted K V ltb).
  apply (ordered_erase (mem_ m) pos (S pos));
    [lia | apply (sorted_is_ordered K V ltb), Hs].
Qed.

(** Every modifying call takes a sorted map to a sorted map. *)
Lemma step_sorted (m m' : vmap) c :
  is_sorted ltb m = true -> step ltb m c = Some m' ->
  is_sorted ltb m' = true.
Proof.
  intros Hs. destruct c; cbn [step].
  - destruct (insert ltb m val) as [r |] eqn:Hr; cbn [bind]; [| discriminate].
    intros [= <-]. eapply insert_sorted; eauto.
  - unfold insert_range.
    destruct (insert_loop ltb m (end_ m) input) as [r |] eqn:Hr;
      cbn [bind]; [| discriminate].
    intros [= <-]. eapply insert_loop_sorted; eauto.
  - unfold insert_il, insert_range.
    destruct (insert_loop ltb m (end_ m) il) as [r |] eqn:Hr;
      cbn [bind]; [| discriminate].
    intros [= <-]. eapply insert_loop_sorted; eauto.
  - unfold erase_pos.
    destruct (vec_erase (mem_ m) pos) as [r |] eqn:Hr;
      cbn [bind]; [| discriminate].
    intros [= <-]. cbn [fst]. eapply vec_erase_sorted; eauto.
  - unfold erase_range.
    destruct (vec_erase_range (mem_ m) first last) as [r |] eqn:Hr;
      cbn [bind]; [| discriminate].
    intros [= <-]. cbn [fst]. eapply vec_erase_range_sorted; eauto.
  - unfold assign, insert_range.
    destruct (insert_loop ltb (clear m) (end_ (clear m)) input) as [r |] eqn:Hr;
      cbn [bind]; [| discriminate].
    intros [= <-]. eapply insert_loop_sorted; [apply empty_sorted | eauto].
  - unfold assign_il, assign, insert_range.
    destruct (insert_loop ltb (clear m) (end_ (clear m)) il) as [r |] eqn:Hr;
      cbn [bind]; [| discriminate].
    intros [= <-]. eapply insert_loop_sorted; [apply empty_sorted | eauto].
  - intros [= <-]. apply empty_sorted.
Qed.

Lemma run_sorted cs : forall (m m' : vmap),
  is_sorted ltb m = true -> run ltb m cs = Some m' ->
  is_sorted ltb m' = true.
Proof.
  induction cs as [| c cs IH]; intros m m' Hs; cbn [run].
  - intros [= <-]. exact Hs.
  - destruct (step ltb m c) as [m1 |] eqn:H1; cbn [bind]; [| discriminate].
    apply IH. eapply step_sorted; eauto.
Qed.

(** No call touches the stored comparison object. *)
Lemma insert_loop_comp input : forall (m : vmap) it r,
  insert_loop ltb m it input = Some r -> comp_ (fst r) = comp_ m.
Proof.
  induction input as [| val rest IH]; intros m it r; cbn [insert_loop].
  - intros [= <-]. reflexivity.
  - destruct (insert_defined m val) as (p & _ & _ & ->). cbn [bind fst snd].
    intros Hr. apply IH in Hr. exact Hr.
Qed.

Lemma step_comp (m m' : vmap) c :
  step ltb m c = Some m' -> comp_ m' = comp_ m.
Proof.
  destruct c; cbn [step].
  - destruct (insert_defined m val) as (p & _ & _ & ->). cbn [bind fst].
    intros [= <-]. reflexivity.
  - unfold insert_range.
    destruct (insert_loop ltb m (end_ m) input) as [r |] eqn:Hr;
      cbn [bind]; [| discriminate].
    intros [= <-]. eapply insert_loop_comp; eauto.
  - unfold insert_il, insert_range.
    destruct (insert_loop ltb m (end_ m) il) as [r |] eqn:Hr;
      cbn [bind]; [| discriminate].
    intros [= <-]. eapply insert_loop_comp; eauto.
  - unfold erase_pos.
    destruct (vec_erase (mem_ m) pos) as [r |]; cbn [bind]; [| discriminate].
    intros [= <-]. reflexivity.
  - unfold erase_range.
    destruct (vec_erase_range (mem_ m) first last) as [r |];
      cbn [bind]; [| discriminate].
    intros [= <-]. reflexivity.
  - unfold assign, insert_range.
    destruct (insert_loop ltb (clear m) (end_ (clear m)) input) as [r |] eqn:Hr;
      cbn [bind]; [| discriminate].
    intros [= <-]. apply insert_loop_comp in Hr. exact Hr.
  - unfold assign_il, assign, insert_range.
    destruct (insert_loop ltb (clear m) (end_ (clear m)) il) as [r |] eqn:Hr;
      cbn [bind]; [| discriminate].
    intros [= <-]. apply insert_loop_comp in Hr. exact Hr.
  - intros [= <-]. reflexivity.
Qed.

Lemma run_comp cs : forall (m m' : vmap),
  run ltb m cs = Some m' -> comp_ m' = comp_ m.
Proof.
  induction cs as [| c cs IH]; intros m m'; cbn [run].
  - intros [= <-]. reflexivity.
  - destruct (step ltb m c) as [m1 |] eqn:H1; cbn [bind]; [| discriminate].
    intros Hr. rewrite (IH m1 m' Hr). eapply step_comp; eauto.
Qed.

(** What a call stores depends on the stored sequence alone, not on the
    comparison object. *)
Lemma insert_loop_mem_only input : forall (m1 m2 : vmap) it,
  mem_ m1 = mem_ m2 ->
  option_map (fun r => (mem_ (fst r), snd r)) (insert_loop ltb m1 it input) =
  option_map (fun r => (mem_ (fst r), snd r)) (insert_loop ltb m2 it input).
Proof.
  induction input as [| val rest IH]; intros [c1 mem1] [c2 mem2] it Hm;
    cbn [mem_] in Hm; subst mem2; cbn [insert_loop].
  - reflexivity.
  - unfold insert, lower_bound, begin_, end_, with_mem. cbn [mem_ comp_].
    destruct (lower_bound_static ltb mem1 0 (length mem1) (fst val))
      as [pos |]; cbn [bind]; [| reflexivity].
    destruct (vec_insert mem1 pos val) as [mem' |]; cbn [bind fst snd];
      [| reflexivity].
    apply IH. reflexivity.
Qed.

Lemma step_mem_only (m1 m2 : vmap) c :
  mem_ m1 = mem_ m2 ->
  option_map (@mem_ K V) (step ltb m1 c) =
  option_map (@mem_ K V) (step ltb m2 c).
Proof.
  intros Hm.
  assert (Hloop : forall (a b : vmap) it input, mem_ a = mem_ b ->
            option_map (@mem_ K V)
              (r <- insert_loop ltb a it input ;; Some (fst r)) =
            option_map (@mem_ K V)
              (r <- insert_loop ltb b it input ;; Some (fst r))).
  { intros a b it input Hab.
    pose proof (insert_loop_mem_only input a b it Hab) as H.
    destruct (insert_loop ltb a it input) as [ra |],
             (insert_loop ltb b it input) as [rb |];
      cbn [bind option_map] in *; congruence. }
  destruct c; cbn [step].
  - pose proof (Hloop m1 m2 0 [val] Hm) as H. cbn [insert_loop] in H.
    destruct (insert ltb m1 val) as [ra |], (insert ltb m2 val) as [rb |];
      cbn [bind option_map fst] in *; congruence.
  - unfold insert_range, end_. rewrite Hm. apply Hloop, Hm.
  - unfold insert_il, insert_range, end_. rewrite Hm. apply Hloop, Hm.
  - unfold erase_pos, with_mem. rewrite Hm.
    destruct (vec_erase (mem_ m2) pos); reflexivity.
  - unfold erase_range, with_mem. rewrite Hm.
    destruct (vec_erase_range (mem_ m2) first last); reflexivity.
  - unfold assign, insert_range. apply Hloop. reflexivity.
  - unfold assign_il, assign, insert_range. apply Hloop. reflexivity.
  - reflexivity.
Qed.

Lemma run_mem_only cs : forall (m1 m2 : vmap),
  mem_ m1 = mem_ m2 ->
  option_map (@mem_ K V) (run ltb m1 cs) =
  option_map (@mem_ K V) (run ltb m2 cs).
Proof.
  induction cs as [| c cs IH]; intros m1 m2 Hm; cbn [run].
  - cbn [option_map]. congruence.
  - pose proof (step_mem_only m1 m2 c Hm) as Hstep.
    destruct (step ltb m1 c) as [a |], (step ltb m2 c) as [b |];
      cbn [bind option_map] in *; try congruence.
    apply IH. congruence.
Qed.

(** A call whose positions are valid returns; all other calls have no
    precondition. *)
Lemma step_defined (m : vmap) c :
  call_ok m c = true -> exists m', step ltb m c = Some m'.
Proof.
  destruct c; cbn [call_ok step]; intros Hok.
  - destruct (insert_defined m val) as (p & _ & _ & ->). eexists; reflexivity.
  - destruct (insert_loop_defined input m (end_ m)) as [r Hr].
    unfold insert_range. rewrite Hr. eexists; reflexivity.
  - destruct (insert_loop_defined il m (end_ m)) as [r Hr].
    unfold insert_il, insert_range. rewrite Hr. eexists; reflexivity.
  - unfold erase_pos, vec_erase. unfold size in Hok. rewrite Hok.
    eexists; reflexivity.
  - unfold erase_range, vec_erase_range. unfold size in Hok. rewrite Hok.
    eexists; reflexivity.
  - destruct (insert_loop_defined input (clear m) (end_ (clear m))) as [r Hr].
    unfold assign, insert_range. rewrite Hr. eexists; reflexivity.
  - destruct (insert_loop_defined il (clear m) (end_ (clear m))) as [r Hr].
    unfold assign_il, assign, insert_range. rewrite Hr. eexists; reflexivity.
  - eexists; reflexivity.
Qed.

(** In a sorted sequence the nodes between two nodes of equivalent keys
    have that key too. *)
Lemma equal_keys_contiguous (mem : list (K * V)) i j l a b c :
  ordered key_le mem -> i <= j <= l ->
  nth_error mem i = Some a -> nth_error mem j = Some b ->
  nth_error mem l = Some c ->
  key_equiv ltb (fst a) (fst c) -> key_equiv ltb (fst a) (fst b).
Proof.
  intros Hord [Hij Hjl] Ha Hb Hc [Hac Hca].
  assert (Hba : ltb (fst b) (fst a) = false).
  { destruct (Nat.eq_dec i j) as [-> | Hne].
    - assert (a = b) as -> by congruence. apply ltb_irrefl.
    - apply negb_true_iff. apply (Hord i j a b); trivial; lia. }
  assert (Hcb : ltb (fst c) (fst b) = false).
  { destruct (Nat.eq_dec j l) as [-> | Hne].
    - assert (b = c) as -> by congruence. apply ltb_irrefl.
    - apply negb_true_iff. apply (Hord j l b c); trivial; lia. }
  split; [| exact Hba].
  destruct (ltb (fst a) (fst b)) eqn:Hab; trivial.
  destruct (ltb_negtrans (fst a) (fst c) (fst b) Hab) as [H | H]; congruence.
Qed.

End Modifiers.
End VectorMapFacts.

(* ------------------------------------------------------------------ *)
(** ** The orderings of the instantiations                              *)
(* ------------------------------------------------------------------ *)

#[export] Instance Z_ltb_order : StrictWeakOrder Z.ltb.
Proof.
  split.
  - apply Z.ltb_irrefl.
  - intros a b c Hab Hbc. apply Z.ltb_lt in Hab, Hbc. apply Z.ltb_lt. lia.
  - intros a b c Hac. apply Z.ltb_lt in Hac.
    destruct (Z.ltb_spec a b); [left; reflexivity | right].
    apply Z.ltb_lt. lia.
Qed.

Lemma Rat_ltb_lt (a b : Q) : Rat.ltb a b = true <-> (a < b)%Q.
Proof.
  unfold Rat.ltb. rewrite negb_true_iff. split.
  - intros H. apply Qnot_le_lt. intros Hle.
    apply Qle_bool_iff in Hle. congruence.
  - intros H. destruct (Qle_bool b a) eqn:Hle; trivial.
    apply Qle_bool_iff in Hle. exfalso. exact (Qlt_not_le _ _ H Hle).
Qed.

Lemma Rat_leb_ltb (a b : Q) : Rat.leb a b = negb (Rat.ltb b a).
Proof. unfold Rat.leb, Rat.ltb. now rewrite negb_involutive. Qed.

#[export] Instance Rat_ltb_order : StrictWeakOrder Rat.ltb.
Proof.
  split.
  - intros a. destruct (Rat.ltb a a) eqn:H; trivial.
    apply Rat_ltb_lt in H. exfalso. exact (Qlt_irrefl _ H).
  - intros a b c Hab Hbc. apply Rat_ltb_lt in Hab, Hbc. apply Rat_ltb_lt.
    eapply Qlt_trans; eauto.
  - intros a b c Hac. apply Rat_ltb_lt in Hac.
    destruct (Qlt_le_dec a b) as [Hlt | Hle].
    + left. apply Rat_ltb_lt, Hlt.
    + right. apply Rat_ltb_lt. eapply Qle_lt_trans; eauto.
Qed.

(* ------------------------------------------------------------------ *)
(** ** The relational operators                                         *)
(* ------------------------------------------------------------------ *)

Section Equality.
Variable A : Type.
Variable eqA : A -> A -> bool.

(** Three-iterator [std::equal] answers [true] exactly when the first
    range agrees, element by element, with the front of the second one;
    what the second range holds behind that is never looked at. *)
Lemma std_equal_true (a b : list A) :
  std_equal eqA a b = Some true <->
  length a <= length b /\
  Forall2 (fun x y => eqA x y = true) a (firstn (length a) b).
Proof.
  revert b. induction a as [| x a IH]; intros b; cbn [std_equal length firstn].
  - split; [intros _; split; [lia | constructor] | reflexivity].
  - destruct b as [| y b]; cbn [length].
    + split; [discriminate | intros [H _]; lia].
    + destruct (eqA x y) eqn:Hxy.
      * rewrite IH. split.
        -- intros [Hl Hf]. split; [lia | constructor; assumption].
        -- intros [Hl Hf]. inversion Hf; subst. split; [lia | assumption].
      * split; [discriminate |].
        intros [_ Hf]. inversion Hf; subst. congruence.
Qed.

(** On ranges of the same length it is element-wise equality. *)
Lemma std_equal_same_length (a b : list A) :
  length a = length b ->
  exists r, std_equal eqA a b = Some r /\
            (r = true <-> Forall2 (fun x y => eqA x y = true) a b).
Proof.
  revert b. induction a as [| x a IH]; intros [| y b]; cbn [length std_equal];
    try discriminate.
  - intros _. exists true. split; [reflexivity |]. split; constructor.
  - intros [= Hlen]. destruct (eqA x y) eqn:Hxy.
    + destruct (IH b Hlen) as (r & Hr & Hiff). exists r. split; [exact Hr |].
      rewrite Hiff. split.
      * intros Hf. constructor; assumption.
      * intros Hf. inversion Hf; subst. assumption.
    + exists false. split; [reflexivity |]. split; [discriminate |].
      intros Hf. inversion Hf; subst. congruence.
Qed.

(** A first range longer than the second one is read past its end. *)
Lemma std_equal_reads_past_end (a b : list A) :
  length b < length a ->
  Forall2 (fun x y => eqA x y = true) (firstn (length b) a) b ->
  std_equal eqA a b = None.
Proof.
  revert b. induction a as [| x a IH]; intros [| y b]; cbn [length std_equal firstn];
    try lia; trivial.
  intros Hlen Hf. inversion Hf; subst.
  replace (eqA x y) with true by congruence. apply IH; [lia | assumption].
Qed.

End Equality.

(* ------------------------------------------------------------------ *)
(** ** [find], [operator==], the bounds, insertion and the invariant    *)
(* ------------------------------------------------------------------ *)

(** C1, where the code departs from it.  [find] reads the key under the
    iterator that [lower_bound] returned before comparing that iterator
    with [end()].  On the empty map, and for a key greater than every
    stored key, [lower_bound] returns [end()], so that read is outside the
    vector and the call has no defined result, instead of returning
    [end()].  The same holds for [interpolating_map::find], which forwards
    to it.  For a key that is not greater than every stored key the call
    behaves as described (see [VectorMapFacts.find_cases]). *)
Theorem find_reads_key_at_end :
  (forall (K V : Type) (ltb eqb comp : K -> K -> bool) (k : K),
      VectorMap.find ltb eqb (VectorMap.empty_map V comp) k = None) /\
  (forall (K V I : Type) (ltb eqb comp : K -> K -> bool) (ipl : I) (k : K),
      InterpolatingMap.find ltb eqb
        (InterpolatingMap.empty_map V ipl comp) k = None) /\
  (forall (K V : Type) (ltb eqb : K -> K -> bool)
          (m : VectorMap.vector_map K V) (k : K),
      (forall nd, In nd (VectorMap.mem_ m) -> ltb (fst nd) k = true) ->
      VectorMap.find ltb eqb m k = None) /\
  VectorMap.find Z.ltb Z.eqb
    (VectorMap.make Z.ltb [(1, 10); (2, 20)]%Z) 3%Z = None.
Proof.
  split; [reflexivity |]. split; [reflexivity |]. split; [| reflexivity].
  intros K V ltb eqb m k Hall.
  apply (VectorMapFacts.find_beyond_last_key K V ltb eqb m k Hall).
Qed.

(** C2, where the code departs from it.  [operator==] is the
    three-iterator [std::equal] over the first map's nodes and never
    compares the sizes: an empty left operand equals every map, and
    [operator!=] is false there.  The same holds for the operators of
    [interpolating_map]. *)
Theorem op_eq_ignores_size :
  (forall (K V : Type) (eqb comp : K -> K -> bool) (veqb : V -> V -> bool)
          (b : VectorMap.vector_map K V),
      VectorMap.op_eq eqb veqb (VectorMap.empty_map V comp) b = Some true /\
      VectorMap.op_ne eqb veqb (VectorMap.empty_map V comp) b = Some false) /\
  (forall (K V I : Type) (eqb comp : K -> K -> bool) (veqb : V -> V -> bool)
          (ipl : I) (b : InterpolatingMap.interpolating_map K V I),
      InterpolatingMap.op_eq eqb veqb
        (InterpolatingMap.empty_map V ipl comp) b = Some true /\
      InterpolatingMap.op_ne eqb veqb
        (InterpolatingMap.empty_map V ipl comp) b = Some false) /\
  (let a := VectorMap.make Z.ltb [(1, 10)]%Z in
   let b := VectorMap.make Z.ltb [(1, 10); (2, 20)]%Z in
   VectorMap.size a <> VectorMap.size b /\
   VectorMap.op_eq Z.eqb Z.eqb a b = Some true /\
   VectorMap.op_ne Z.eqb Z.eqb a b = Some false /\
   VectorMap.op_eq Z.eqb Z.eqb b a = None).
Proof.
  split; [intros; split; reflexivity |].
  split; [intros; split; reflexivity |].
  cbv zeta. split; [discriminate |]. repeat split; reflexivity.
Qed.

(** C3.  The key comparison takes no part in the order of the nodes.
    A run of calls to [insert], [erase] (a position, a range), [assign]
    and [clear] stores the same sequence whatever comparison object the
    map was built with; that sequence is non-decreasing under the key
    type's [operator<], and [key_comp()] still returns the object handed
    to the constructor.  With [std::greater<int>] as the key comparison,
    inserting the keys 1 and 2 stores them as 1, 2, which is not
    non-decreasing under [key_comp()]. *)
Theorem key_compare_is_not_consulted :
  (forall (K V : Type) (ltb comp comp' : K -> K -> bool)
          (cs : list (VectorMap.call K V)),
      option_map (@VectorMap.mem_ K V)
                 (VectorMap.run ltb (VectorMap.empty_map V comp) cs) =
      option_map (@VectorMap.mem_ K V)
                 (VectorMap.run ltb (VectorMap.empty_map V comp') cs)) /\
  (forall (K V : Type) (ltb : K -> K -> bool), StrictWeakOrder ltb ->
   forall (comp : K -> K -> bool) (cs : list (VectorMap.call K V))
          (m : VectorMap.vector_map K V),
      VectorMap.run ltb (VectorMap.empty_map V comp) cs = Some m ->
      VectorMap.key_comp m = comp /\ VectorMap.is_sorted ltb m = true) /\
  (exists m : VectorMap.vector_map Z Z,
      VectorMap.run Z.ltb (VectorMap.empty_map Z Z.gtb)
        [VectorMap.Insert (1, 10)%Z; VectorMap.Insert (2, 20)%Z] = Some m /\
      VectorMap.mem_ m = [(1, 10); (2, 20)]%Z /\
      VectorMap.is_sorted (VectorMap.key_comp m) m = false).
Proof.
  split; [| split].
  - intros K V ltb comp comp' cs.
    apply VectorMapFacts.run_mem_only. reflexivity.
  - intros K V ltb Hord comp cs m Hrun. split.
    + exact (VectorMapFacts.run_comp K V ltb cs _ m Hrun).
    + apply (VectorMapFacts.run_sorted K V ltb cs
               (VectorMap.empty_map V comp) m); [reflexivity | exact Hrun].
  - eexists. split; [reflexivity |]. split; reflexivity.
Qed.

(** Starting from the empty container, after every finite sequence of
    calls to [insert] (one value, a range, an initializer list), [erase]
    (a position, a range), [assign] and [clear], the stored keys are
    non-decreasing under the key type's [operator<], the comparison every
    search of the class uses and the one the default [key_compare]
    denotes, and nodes of equal key are contiguous; the comparison object
    handed to the constructor is still the one [key_comp()] returns. *)
Theorem sortedness_invariant :
  forall (K V : Type) (ltb : K -> K -> bool) (Hord : StrictWeakOrder ltb)
         (comp : K -> K -> bool)
         (cs : list (VectorMap.call K V)) (m : VectorMap.vector_map K V),
    VectorMap.run ltb (VectorMap.empty_map V comp) cs = Some m ->
    VectorMap.key_comp m = comp /\
    VectorMap.is_sorted ltb m = true /\
    (forall i j a b, i < j ->
        nth_error (VectorMap.mem_ m) i = Some a ->
        nth_error (VectorMap.mem_ m) j = Some b ->
        ltb (fst b) (fst a) = false) /\
    (forall i j l a b c, i <= j <= l ->
        nth_error (VectorMap.mem_ m) i = Some a ->
        nth_error (VectorMap.mem_ m) j = Some b ->
        nth_error (VectorMap.mem_ m) l = Some c ->
        key_equiv ltb (fst a) (fst c) -> key_equiv ltb (fst a) (fst b)).
Proof.
  intros K V ltb Hord comp cs m Hrun.
  assert (Hs : VectorMap.is_sorted ltb m = true).
  { apply (VectorMapFacts.run_sorted K V ltb cs
             (VectorMap.empty_map V comp) m); [reflexivity | exact Hrun]. }
  pose proof (VectorMapFacts.sorted_is_ordered K V ltb m Hs) as Ho.
  split; [exact (VectorMapFacts.run_comp K V ltb cs _ m Hrun) |].
  split; [exact Hs |]. split.
  - intros i j a b Hij Ha Hb. apply negb_true_iff. exact (Ho i j a b Hij Ha Hb).
  - intros i j l a b c Hijl Ha Hb Hc.
    exact (VectorMapFacts.equal_keys_contiguous K V ltb
             (VectorMap.mem_ m) i j l a b c Ho Hijl Ha Hb Hc).
Qed.

(** C4.  Of the three queries only [lower_bound] can be called.  The
    static [upper_bound] and [equal_range] declare a template parameter
    [T] that no function parameter mentions, and every call of them in
    the class leaves it out: [upper_bound(k)] and [equal_range(k)] have
    no matching function to call, on every map and for every key, and so
    do [count(k)] and [erase(key)], which start from [equal_range]; the
    static [equal_range] cannot be instantiated with [T] given either.
    [lower_bound] declares [Iter] only, which is deduced, and on a map
    whose nodes are sorted by key it returns the first position whose key
    is not less than [k]. *)
Theorem upper_bound_and_equal_range_have_no_match :
  (forall (K V : Type) (ltb : K -> K -> bool)
          (m : VectorMap.vector_map K V) (k : K),
      VectorMap.upper_bound ltb m k = NoMatchingFunction /\
      VectorMap.equal_range ltb m k = NoMatchingFunction /\
      VectorMap.count ltb m k = NoMatchingFunction /\
      VectorMap.erase_key ltb m k = NoMatchingFunction) /\
  (forall (K V : Type) (ltb : K -> K -> bool)
          (mem : list (K * V)) (first last : nat) (k : K),
      VectorMap.equal_range_static ltb mem first last k =
      NoMatchingFunction) /\
  deducible VectorMap.lower_bound_template = true /\
  (forall (K V : Type) (ltb : K -> K -> bool), StrictWeakOrder ltb ->
   forall (m : VectorMap.vector_map K V) (k : K),
      VectorMap.is_sorted ltb m = true ->
      exists lb,
        VectorMap.lower_bound ltb m k = Some lb /\
        lb <= VectorMap.size m /\
        forall i nd, nth_error (VectorMap.mem_ m) i = Some nd ->
          (i < lb <-> ltb (fst nd) k = true)).
Proof.
  split; [| split; [| split]].
  - intros K V ltb m k. repeat split; reflexivity.
  - intros K V ltb mem first last k. reflexivity.
  - reflexivity.
  - intros K V ltb Hord m k Hs.
    exact (VectorMapFacts.lower_bound_spec K V ltb m k Hs).
Qed.

Lemma sortedness_invariant_witness :
  VectorMap.run Z.ltb IntMap.empty_map IntMap.calls = Some IntMap.after_calls /\
  VectorMap.is_sorted Z.ltb IntMap.after_calls = true.
Proof.
  split; [reflexivity |].
  exact (proj1 (proj2 (sortedness_invariant Z Z Z.ltb Z_ltb_order IntMap.less
                         IntMap.calls IntMap.after_calls eq_refl))).
Defined.

Section InsertPlacement.
Variables K V : Type.
Variable ltb : K -> K -> bool.

(** The map that [insert(first, last)] leaves is the one that inserting
    the values one at a time leaves. *)
Lemma insert_loop_run input : forall (m : VectorMap.vector_map K V) it,
  option_map fst (VectorMap.insert_loop ltb m it input) =
  VectorMap.run ltb m (map (@VectorMap.Insert K V) input).
Proof.
  induction input as [| val rest IH]; intros m it;
    cbn [VectorMap.insert_loop VectorMap.run map VectorMap.step]; trivial.
  destruct (VectorMap.insert ltb m val) as [r |]; cbn [bind];
    [apply IH | reflexivity].
Qed.

(** Reading a vector around a freshly inserted element. *)
Lemma nth_error_inserted (mem : list (K * V)) p val :
  p <= length mem ->
  nth_error (firstn p mem ++ val :: skipn p mem) p = Some val /\
  (forall i, i < p ->
     nth_error (firstn p mem ++ val :: skipn p mem) i = nth_error mem i) /\
  (forall i, p <= i ->
     nth_error (firstn p mem ++ val :: skipn p mem) (S i) = nth_error mem i).
Proof.
  intros Hp.
  assert (Hlen : length (firstn p mem) = p) by (rewrite length_firstn; lia).
  split; [| split].
  - rewrite nth_error_app2 by lia. rewrite Hlen, Nat.sub_diag. reflexivity.
  - intros i Hi. rewrite nth_error_app1 by lia.
    rewrite nth_error_firstn. destruct (Nat.ltb_spec i p); [reflexivity | lia].
  - intros i Hi. rewrite nth_error_app2 by lia. rewrite Hlen.
    replace (S i - p) with (S (i - p)) by lia. cbn [nth_error].
    rewrite nth_error_skipn. f_equal. lia.
Qed.

End InsertPlacement.

(** C9.  [insert((k, v))] puts the new node at the lower-bound position of
    [k]: the nodes in front of that position and the nodes from it on keep
    their order, the latter one place further back; the nodes whose key
    is equivalent to [k] were the ones from the lower bound up to the upper
    bound (the position that the static [upper_bound<Iter, T>] computes
    over the whole vector), so the new node stands immediately before all
    of them.  Range and initializer-list insertion insert their values one
    at a time in this way. *)
Theorem insert_at_lower_bound :
  forall (K V : Type) (ltb : K -> K -> bool) (Hord : StrictWeakOrder ltb)
         (m : VectorMap.vector_map K V) (k : K) (v : V)
         (input : list (K * V)),
    VectorMap.is_sorted ltb m = true ->
    (exists p ub,
        let mem := VectorMap.mem_ m in
        let mem' := firstn p mem ++ (k, v) :: skipn p mem in
        VectorMap.lower_bound ltb m k = Some p /\
        VectorMap.upper_bound_static ltb mem (VectorMap.begin_ m)
                                     (VectorMap.end_ m) k = Some ub /\
        p <= ub <= VectorMap.size m /\
        VectorMap.insert ltb m (k, v) = Some (VectorMap.with_mem m mem', p) /\
        nth_error mem' p = Some (k, v) /\
        (forall i, i < p -> nth_error mem' i = nth_error mem i) /\
        (forall i, p <= i -> nth_error mem' (S i) = nth_error mem i) /\
        (forall i nd, nth_error mem i = Some nd ->
           (key_equiv ltb (fst nd) k <-> p <= i < ub))) /\
    option_map fst (VectorMap.insert_range ltb m input) =
      VectorMap.run ltb m (map (@VectorMap.Insert K V) input) /\
    option_map fst (VectorMap.insert_il ltb m input) =
      VectorMap.run ltb m (map (@VectorMap.Insert K V) input).
Proof.
  intros K V ltb Hord m k v input Hs. split.
  - destruct (VectorMapFacts.bounds_characterised K V ltb m k Hs)
      as (p & ub & Hlb & Hub & _ & Hb & Hspec).
    destruct (VectorMapFacts.insert_defined K V ltb m (k, v))
      as (p' & Hp' & Hpb & Hins).
    cbn [fst] in Hp'. assert (p' = p) as -> by congruence.
    destruct (nth_error_inserted K V (VectorMap.mem_ m) p (k, v) Hpb)
      as (Hat & Hbefore & Hafter).
    exists p, ub. cbv zeta.
    repeat (split; [first [assumption | apply Hb] |]).
    intros i nd Hnd. symmetry. apply (Hspec i nd Hnd).
  - split; apply insert_loop_run.
Qed.

Lemma insert_at_lower_bound_witness :
  VectorMap.is_sorted Z.ltb IntMap.with_duplicates = true /\
  VectorMap.insert Z.ltb IntMap.with_duplicates (2, 23)%Z =
    Some (VectorMap.make IntMap.less
            [(1, 10); (2, 23); (2, 22); (2, 21); (2, 20); (3, 30)]%Z, 1).
Proof.
  split; [reflexivity |].
  destruct (insert_at_lower_bound Z Z Z.ltb Z_ltb_order IntMap.with_duplicates
              2%Z 23%Z [] eq_refl) as [(p & ub & Hlb & _ & _ & Hins & _) _].
  cbv zeta in Hins. rewrite Hins.
  injection Hlb as <-. reflexivity.
Defined.

(* ------------------------------------------------------------------ *)
(** ** The interpolation strategies                                     *)
(* ------------------------------------------------------------------ *)

Section StdLowerBound.
Variables A T : Type.
Variable comp : A -> T -> bool.

(** [std::lower_bound] over a whole range on which [comp(., x)] holds on
    a prefix only: the position where it stops holding. *)
Lemma std_lower_bound_spec (nodes : list A) (x : T) :
  partitioned (fun a => comp a x) nodes 0 (length nodes) ->
  exists p, std_lower_bound comp nodes 0 (length nodes) x = Some p /\
            p <= length nodes /\
            forall i a, nth_error nodes i = Some a ->
                        (i < p <-> comp a x = true).
Proof.
  intros Hpart. unfold std_lower_bound. rewrite Nat.sub_0_r.
  destruct (search_loop_total A (fun a => comp a x) (length nodes) nodes 0
              (length nodes)) as (p & Hp & Hb); [lia | lia |].
  exists p. split; [exact Hp |]. split; [lia |].
  apply search_loop_partition in Hp; [| lia | exact Hpart].
  destruct Hp as [Hlo Hhi]. intros i a Ha. split.
  - intros Hi. apply (Hlo i); [lia | exact Ha].
  - intros Hc. destruct (Nat.lt_ge_cases i p) as [| Hge]; trivial.
    assert (i < length nodes) by (apply nth_error_Some; congruence).
    rewrite (Hhi i a) in Hc; [discriminate | simpl; lia | exact Ha].
Qed.

End StdLowerBound.

Lemma sortedb_weaken (A : Type) (le1 le2 : A -> A -> bool) (l : list A) :
  (forall a b, le1 a b = true -> le2 a b = true) ->
  sortedb le1 l = true -> sortedb le2 l = true.
Proof.
  intros Hle. induction l as [| x l IH]; trivial.
  destruct l as [| y l]; trivial.
  change (sortedb le1 (x :: y :: l)) with (le1 x y && sortedb le1 (y :: l)).
  change (sortedb le2 (x :: y :: l)) with (le2 x y && sortedb le2 (y :: l)).
  rewrite !andb_true_iff. intros [Hxy Hs]. split; [apply Hle, Hxy | apply IH, Hs].
Qed.

Module InterpolatorFacts.
Import Interpolator.

Section Strategies.
Variable F : Type.
Variable zero : F.
Variables add sub mul div : F -> F -> F.
Variables ltb leb : F -> F -> bool.
Variable log : F -> F.
Context {ltb_order : StrictWeakOrder ltb}.
(** [a <= b] is [!(b < a)], as for numbers. *)
Hypothesis leb_ltb : forall a b, leb a b = negb (ltb b a).

Local Abbreviation node := (F * F)%type.

Lemma ascending_ordered (nodes : list node) :
  ascending ltb nodes = true ->
  ordered (VectorMap.key_le (V:=F) ltb) nodes.
Proof.
  intros H. apply sortedb_ordered.
  - apply (VectorMapFacts.key_le_trans F F ltb).
  - exact H.
Qed.

Lemma strictly_ascending_ascending (nodes : list node) :
  strictly_ascending ltb nodes = true -> ascending ltb nodes = true.
Proof.
  apply sortedb_weaken. intros a b Hab.
  apply negb_true_iff, (ltb_asym ltb), Hab.
Qed.

(** The position the two linear strategies search for. *)
Lemma search_lt (nodes : list node) (x : F) :
  ascending ltb nodes = true ->
  exists p,
    std_lower_bound (fun (a : node) (x : F) => ltb (fst a) x)
                    nodes 0 (length nodes) x = Some p /\
    p <= length nodes /\
    forall i nd, nth_error nodes i = Some nd ->
                 (i < p <-> ltb (fst nd) x = true).
Proof.
  intros Hs.
  apply (std_lower_bound_spec node F (fun (a : node) (x : F) => ltb (fst a) x)).
  apply (VectorMapFacts.sorted_partitioned_lt F F ltb), ascending_ordered, Hs.
Qed.

(** The position [piecewise_constant] searches for. *)
Lemma search_le (nodes : list node) (x : F) :
  ascending ltb nodes = true ->
  exists p,
    std_lower_bound (fun (a : node) (x : F) => leb (fst a) x)
                    nodes 0 (length nodes) x = Some p /\
    p <= length nodes /\
    forall i nd, nth_error nodes i = Some nd ->
                 (i < p <-> leb (fst nd) x = true).
Proof.
  intros Hs.
  apply (std_lower_bound_spec node F (fun (a : node) (x : F) => leb (fst a) x)).
  intros i j a b Hi Hij Hj Ha Hb. rewrite !leb_ltb.
  apply (VectorMapFacts.sorted_partitioned_ngt F F ltb nodes x 0 (length nodes)
           (ascending_ordered nodes Hs) i j a b Hi Hij Hj Ha Hb).
Qed.

Lemma clamp_range (n p : nat) :
  2 <= n -> p <= n -> 1 <= clamp n p <= n - 1.
Proof.
  intros Hn Hp. unfold clamp.
  destruct (Nat.eqb_spec p 0); [lia |].
  destruct (Nat.eqb_spec p n); lia.
Qed.

(** [piecewise_linear]: value on at least two nodes. *)
Lemma piecewise_linear_value (nodes : list node) (x : F) :
  2 <= length nodes -> ascending ltb nodes = true ->
  exists p k0 v0 k1 v1,
    std_lower_bound (fun (a : node) (x : F) => ltb (fst a) x)
                    nodes 0 (length nodes) x = Some p /\
    (forall i nd, nth_error nodes i = Some nd ->
                  (i < p <-> ltb (fst nd) x = true)) /\
    p <= length nodes /\
    nth_error nodes (clamp (length nodes) p - 1) = Some (k0, v0) /\
    nth_error nodes (clamp (length nodes) p) = Some (k1, v1) /\
    piecewise_linear_apply zero add sub mul div ltb nodes x =
    Some (add v0 (mul (div (sub v1 v0) (sub k1 k0)) (sub x k0))).
Proof.
  intros Hn Hs. destruct (search_lt nodes x Hs) as (p & Hp & Hb & Hspec).
  pose proof (clamp_range (length nodes) p Hn Hb) as Hc.
  destruct (nth_error nodes (clamp (length nodes) p)) as [[k1 v1] |] eqn:H1.
  2:{ apply nth_error_None in H1. lia. }
  destruct (nth_error nodes (clamp (length nodes) p - 1)) as [[k0 v0] |] eqn:H0.
  2:{ apply nth_error_None in H0. lia. }
  exists p, k0, v0, k1, v1. repeat (split; [assumption |]).
  unfold piecewise_linear_apply, Interpolator.node. cbv zeta.
  destruct (Nat.ltb_spec (length nodes) 1); [lia |].
  destruct (Nat.eqb_spec (length nodes) 1); [lia |].
  rewrite Hp. cbn [bind]. rewrite H1. cbn [bind].
  rewrite <- Nat.sub_1_r, H0. reflexivity.
Qed.

(** [piecewise_constant]: value on at least two nodes. *)
Lemma piecewise_constant_value (nodes : list node) (x : F) :
  2 <= length nodes -> ascending ltb nodes = true ->
  exists p,
    (forall i nd, nth_error nodes i = Some nd ->
                  (i < p <-> leb (fst nd) x = true)) /\
    p <= length nodes /\
    piecewise_constant_apply zero leb nodes x =
    option_map snd (nth_error nodes (pred p)).
Proof.
  intros Hn Hs. destruct (search_le nodes x Hs) as (p & Hp & Hb & Hspec).
  exists p. split; [exact Hspec |]. split; [exact Hb |].
  unfold piecewise_constant_apply, Interpolator.node. cbv zeta.
  destruct (Nat.ltb_spec (length nodes) 1); [lia |].
  destruct (Nat.eqb_spec (length nodes) 1); [lia |].
  rewrite Hp. cbn [bind].
  destruct (Nat.eqb_spec p 0) as [-> | Hne]; cbn [negb pred].
  - destruct (nth_error nodes 0); reflexivity.
  - destruct (nth_error nodes (pred p)); reflexivity.
Qed.

End Strategies.
End InterpolatorFacts.

(** C5.  On at least two nodes of strictly ascending keys
    [piecewise_linear] searches the lower-bound position [p] under the
    test "key < x", moves it into [1, n-1] to get the upper end [p1] of the
    bracket ([1] when [x] is not above the first key, [n-1] when it is
    above every key), takes [p0 = p1 - 1], and returns
    [v0 + ((v1 - v0) / (k1 - k0)) * (x - k0)], inside and outside the
    domain alike.  With nodes (1,1), (10,10) and exact arithmetic that is
    20.12 at 20.12 and -1.4 at -1.4. *)
Theorem piecewise_linear_bracket :
  (forall (F : Type) (zero : F) (add sub mul div : F -> F -> F)
          (ltb : F -> F -> bool) (Hord : StrictWeakOrder ltb)
          (nodes : list (F * F)) (x : F),
      2 <= length nodes ->
      Interpolator.strictly_ascending ltb nodes = true ->
      exists p k0 v0 k1 v1,
        let n := length nodes in
        let p1 := Interpolator.clamp n p in
        std_lower_bound (fun (a : F * F) (x : F) => ltb (fst a) x)
                        nodes 0 n x = Some p /\
        (forall i nd, nth_error nodes i = Some nd ->
                      (i < p <-> ltb (fst nd) x = true)) /\
        1 <= p1 <= n - 1 /\
        (p = 0 -> p1 = 1) /\ (p = n -> p1 = n - 1) /\ (0 < p < n -> p1 = p) /\
        nth_error nodes (p1 - 1) = Some (k0, v0) /\
        nth_error nodes p1 = Some (k1, v1) /\
        Interpolator.piecewise_linear_apply zero add sub mul div ltb nodes x =
        Some (add v0 (mul (div (sub v1 v0) (Interpolator.make_fp (sub k1 k0)))
                          (sub x k0)))) /\
  (exists r, Rat.piecewise_linear_apply Rat.nodes2dbl Rat.q20_12 = Some r /\
             (r == Rat.q20_12)%Q) /\
  (exists r, Rat.piecewise_linear_apply Rat.nodes2dbl Rat.qm1_4 = Some r /\
             (r == Rat.qm1_4)%Q).
Proof.
  split; [| split; eexists; (split; [reflexivity | reflexivity])].
  intros F zero add sub mul div ltb Hord nodes x Hn Hs.
  apply (InterpolatorFacts.strictly_ascending_ascending F ltb) in Hs.
  destruct (InterpolatorFacts.piecewise_linear_value F zero add sub mul div ltb
              nodes x Hn Hs) as (p & k0 & v0 & k1 & v1 & Hp & Hspec & Hb & H0 & H1 & Hv).
  exists p, k0, v0, k1, v1. cbv zeta.
  pose proof (InterpolatorFacts.clamp_range (length nodes) p Hn Hb) as Hc.
  split; [exact Hp |]. split; [exact Hspec |]. split; [exact Hc |].
  split; [intros ->; reflexivity |].
  split; [intros ->; unfold Interpolator.clamp;
          destruct (Nat.eqb_spec (length nodes) 0); [lia |];
          rewrite Nat.eqb_refl; lia |].
  split; [intros Hin; unfold Interpolator.clamp;
          destruct (Nat.eqb_spec p 0); [lia |];
          destruct (Nat.eqb_spec p (length nodes)); [lia | reflexivity] |].
  split; [exact H0 |]. split; [exact H1 | exact Hv].
Qed.

Lemma piecewise_linear_bracket_witness :
  2 <= length Rat.nodes2dbl /\
  Interpolator.strictly_ascending Rat.ltb Rat.nodes2dbl = true /\
  exists r, Rat.piecewise_linear_apply Rat.nodes2dbl 5%Q = Some r.
Proof.
  split; [simpl; lia |]. split; [reflexivity |].
  destruct (proj1 piecewise_linear_bracket Q 0%Q Qplus Qminus Qmult Qdiv
              Rat.ltb Rat_ltb_order Rat.nodes2dbl 5%Q
              ltac:(simpl; lia) eq_refl)
    as (p & k0 & v0 & k1 & v1 & H).
  cbv zeta in H. eexists. apply H.
Defined.

(** C6.  On at least two nodes of ascending keys [piecewise_constant]
    returns the first node's value when [x] is less than every stored key,
    and otherwise the value of the last node whose key is not greater than
    [x]; no stored key that is not greater than [x] exceeds the key of that
    node.  With nodes (1,1), (10,10): 1 at 9.9, 10 at 10 and 10 at
    1123.54. *)
Theorem piecewise_constant_greatest_key_below :
  (forall (F : Type) (zero : F) (ltb leb : F -> F -> bool)
          (Hord : StrictWeakOrder ltb)
          (Hleb : forall a b, leb a b = negb (ltb b a))
          (nodes : list (F * F)) (x : F),
      2 <= length nodes ->
      Interpolator.ascending ltb nodes = true ->
      ((forall nd, In nd nodes -> leb (fst nd) x = false) ->
       exists first, nth_error nodes 0 = Some first /\
         Interpolator.piecewise_constant_apply zero leb nodes x =
         Some (snd first)) /\
      ((exists nd, In nd nodes /\ leb (fst nd) x = true) ->
       exists i nd,
         nth_error nodes i = Some nd /\ leb (fst nd) x = true /\
         (forall j nd', nth_error nodes j = Some nd' ->
                        leb (fst nd') x = true ->
                        j <= i /\ ltb (fst nd) (fst nd') = false) /\
         Interpolator.piecewise_constant_apply zero leb nodes x =
         Some (snd nd))) /\
  Rat.piecewise_constant_apply Rat.nodes2dbl Rat.q9_9 = Some 1%Q /\
  Rat.piecewise_constant_apply Rat.nodes2dbl 10%Q = Some 10%Q /\
  Rat.piecewise_constant_apply Rat.nodes2dbl Rat.q1123_54 = Some 10%Q.
Proof.
  split; [| repeat split; reflexivity].
  intros F zero ltb leb Hord Hleb nodes x Hn Hs.
  destruct (InterpolatorFacts.piecewise_constant_value F zero ltb leb Hleb
              nodes x Hn Hs) as (p & Hspec & Hb & Hv).
  pose proof (InterpolatorFacts.ascending_ordered F ltb nodes Hs) as Ho.
  split.
  - intros Hall.
    destruct (nth_error nodes 0) as [first |] eqn:H0.
    2:{ apply nth_error_None in H0. lia. }
    exists first. split; [reflexivity |].
    assert (p = 0) as ->.
    { destruct p as [| p]; trivial.
      destruct (nth_error nodes p) as [nd |] eqn:Hnd.
      - pose proof (proj1 (Hspec p nd Hnd) ltac:(lia)) as Hle.
        rewrite (Hall nd) in Hle; [discriminate | eapply nth_error_In; eauto].
      - apply nth_error_None in Hnd. lia. }
    rewrite Hv. cbn [pred]. rewrite H0. reflexivity.
  - intros (nd0 & Hin & Hle0).
    apply In_nth_error in Hin. destruct Hin as [j0 Hj0].
    pose proof (proj2 (Hspec j0 nd0 Hj0) Hle0) as Hj0p.
    destruct (nth_error nodes (pred p)) as [nd |] eqn:Hnd.
    2:{ apply nth_error_None in Hnd. lia. }
    exists (pred p), nd. split; [exact Hnd |].
    split; [apply (Hspec (pred p) nd Hnd); lia |].
    split; [| rewrite Hv; reflexivity].
    intros j nd' Hj Hle. pose proof (proj2 (Hspec j nd' Hj) Hle) as Hjp.
    split; [lia |].
    destruct (Nat.eq_dec j (pred p)) as [-> | Hne].
    + assert (nd' = nd) as -> by congruence. apply ltb_irrefl.
    + apply negb_true_iff. apply (Ho j (pred p) nd' nd); trivial. lia.
Qed.

Lemma piecewise_constant_greatest_key_below_witness :
  2 <= length Rat.nodes2dbl /\
  Interpolator.ascending Rat.ltb Rat.nodes2dbl = true /\
  (exists nd, In nd Rat.nodes2dbl /\ Rat.leb (fst nd) Rat.q9_9 = true) /\
  exists i nd,
    nth_error Rat.nodes2dbl i = Some nd /\
    Rat.piecewise_constant_apply Rat.nodes2dbl Rat.q9_9 = Some (snd nd).
Proof.
  split; [simpl; lia |]. split; [reflexivity |].
  assert (Hex : exists nd, In nd Rat.nodes2dbl /\
                           Rat.leb (fst nd) Rat.q9_9 = true)
    by (exists (1, 1)%Q; split; [left; reflexivity | reflexivity]).
  split; [exact Hex |].
  destruct (proj2 (proj1 piecewise_constant_greatest_key_below Q 0%Q
              Rat.ltb Rat.leb Rat_ltb_order Rat_leb_ltb Rat.nodes2dbl Rat.q9_9
              ltac:(simpl; lia) eq_refl) Hex)
    as (i & nd & Hnd & _ & _ & Hv).
  exists i, nd. split; assumption.
Defined.

(** C7.  Each of the three strategies returns the zero of the value type
    on an empty range and the node's value on a range of one node, for
    every argument [x]. *)
Theorem degenerate_ranges :
  forall (F : Type) (zero : F) (add sub mul div : F -> F -> F)
         (ltb leb : F -> F -> bool) (log : F -> F) (x : F),
    Interpolator.piecewise_constant_apply zero leb [] x = Some zero /\
    Interpolator.piecewise_linear_apply zero add sub mul div ltb [] x
      = Some zero /\
    Interpolator.piecewise_log_linear_apply zero add sub mul div ltb leb log [] x
      = Some zero /\
    forall nd : F * F,
      Interpolator.piecewise_constant_apply zero leb [nd] x = Some (snd nd) /\
      Interpolator.piecewise_linear_apply zero add sub mul div ltb [nd] x
        = Some (snd nd) /\
      Interpolator.piecewise_log_linear_apply zero add sub mul div ltb leb log
        [nd] x = Some (snd nd).
Proof. intros. repeat split; reflexivity. Qed.

(** C8.  On a range of at least one node [piecewise_log_linear] returns
    the first node's value for every [x <= 0], however many nodes follow
    and whatever [log] is: no logarithm and no quotient is computed. *)
Theorem log_linear_non_positive :
  forall (F : Type) (zero : F) (add sub mul div : F -> F -> F)
         (ltb leb : F -> F -> bool) (log : F -> F)
         (first : F * F) (rest : list (F * F)) (x : F),
    leb x zero = true ->
    Interpolator.piecewise_log_linear_apply zero add sub mul div ltb leb log
      (first :: rest) x = Some (snd first).
Proof.
  intros F zero add sub mul div ltb leb log first rest x Hx.
  unfold Interpolator.piecewise_log_linear_apply. cbv zeta.
  cbn [length Nat.ltb Nat.leb]. rewrite Hx, orb_true_r. reflexivity.
Qed.

Lemma log_linear_non_positive_witness :
  Rat.leb Rat.qm1_4 0%Q = true /\
  Rat.piecewise_log_linear_apply Rat.log_unused Rat.nodes2dbl Rat.qm1_4
    = Some 1%Q.
Proof.
  split; [reflexivity |].
  exact (log_linear_non_positive Q 0%Q Qplus Qminus Qmult Qdiv Rat.ltb Rat.leb
           Rat.log_unused (1, 1)%Q [(10, 10)%Q] Rat.qm1_4 eq_refl).
Defined.

(* ------------------------------------------------------------------ *)
(** ** The gradient wrapper                                             *)
(* ------------------------------------------------------------------ *)

Section GradientEnds.
Variables Argument Result I : Type.
Variable lt : Result -> Result -> bool.
Context {lt_order : StrictWeakOrder lt}.

Local Abbreviation gradient := (Gradients.interpolating_gradient Argument Result I).

Lemma last_cons_default (A : Type) (l : list A) :
  forall a d d' : A, last (a :: l) d = last (a :: l) d'.
Proof.
  induction l as [| y l IH]; intros a d d'; [reflexivity |].
  change (last (y :: l) d = last (y :: l) d'). apply IH.
Qed.

Lemma nth_error_last (A : Type) (l : list A) (d : A) :
  nth_error (d :: l) (length l) = Some (last l d).
Proof.
  revert d. induction l as [| y l IH]; intros d; [reflexivity |].
  cbn [length nth_error]. rewrite IH. f_equal.
  destruct l as [| z l]; [reflexivity |].
  change (last (z :: l) y = last (z :: l) d). apply last_cons_default.
Qed.

(** [min()] and [max()] are the mapped values of the first and of the
    last stored node. *)
Lemma min_max_are_ends (g : gradient) first rest :
  Gradients.nodes g = first :: rest ->
  Gradients.min g = Some (snd first) /\
  Gradients.max g = Some (snd (last rest first)).
Proof.
  intros Hg. unfold Gradients.min, Gradients.max. rewrite Hg. split.
  - reflexivity.
  - cbn [length]. rewrite nth_error_last. reflexivity.
Qed.

(** In a non-decreasing sequence the first element is a minimum and the
    last one a maximum. *)
Lemma ends_of_sorted (v : Result) (vs : list Result) :
  sortedb (fun a b => negb (lt b a)) (v :: vs) = true ->
  Gradients.is_minimum lt (v :: vs) v /\
  Gradients.is_maximum lt (v :: vs) (last vs v).
Proof.
  intros Hs.
  assert (Ho : ordered (fun a b => negb (lt b a)) (v :: vs)).
  { apply sortedb_ordered; [| exact Hs].
    intros a b c. rewrite !negb_true_iff. apply (nlt_trans lt). }
  split; split.
  - left; reflexivity.
  - intros w [<- | Hw]; [apply ltb_irrefl |].
    apply ordered_cons in Ho. apply negb_true_iff, (proj1 Ho), Hw.
  - eapply nth_error_In. apply nth_error_last.
  - intros w Hw. apply In_nth_error in Hw. destruct Hw as [j Hj].
    assert (Hjl : j < length (v :: vs)) by (apply nth_error_Some; congruence).
    cbn [length] in Hjl.
    destruct (Nat.eq_dec j (length vs)) as [-> | Hne].
    + rewrite nth_error_last in Hj. injection Hj as <-. apply ltb_irrefl.
    + apply negb_true_iff.
      apply (Ho j (length vs) w (last vs v)); [lia | exact Hj |].
      apply nth_error_last.
Qed.

End GradientEnds.

Section EndKeys.
Variables K V : Type.
Variable ltb : K -> K -> bool.
Context {ltb_order : StrictWeakOrder ltb}.

(** In a sequence sorted by key no key is less than the key of the first
    node and none is greater than the key of the last one. *)
Lemma extreme_keys_at_ends (first : K * V) (rest : list (K * V)) :
  ordered (VectorMap.key_le (V:=V) ltb) (first :: rest) ->
  forall nd, In nd (first :: rest) ->
    ltb (fst nd) (fst first) = false /\
    ltb (fst (last rest first)) (fst nd) = false.
Proof.
  intros Ho nd Hin. apply In_nth_error in Hin. destruct Hin as [j Hj].
  assert (Hjl : j < length (first :: rest))
    by (apply nth_error_Some; congruence).
  cbn [length] in Hjl. split.
  - destruct j as [| j].
    + injection Hj as <-. apply ltb_irrefl.
    + apply negb_true_iff.
      exact (Ho 0 (S j) first nd ltac:(lia) eq_refl Hj).
  - destruct (Nat.eq_dec j (length rest)) as [-> | Hne].
    + rewrite nth_error_last in Hj. injection Hj as <-. apply ltb_irrefl.
    + apply negb_true_iff.
      exact (Ho j (length rest) nd (last rest first) ltac:(lia) Hj
               (nth_error_last _ rest first)).
Qed.

End EndKeys.

(** C10 as stated fails: the gradient built from the nodes (0,5), (1,3)
    answers [min() = 5] and [max() = 3], while the smallest stored value is
    3 and the largest 5, which is also what the free functions [min] and
    [max] of the wrapped map find. *)
Lemma gradient_min_max_not_extrema :
  exists g : Rat.linear_gradient,
    Rat.linear_gradient_il [(0, 5); (1, 3)]%Q = Some g /\
    Gradients.nodes g <> [] /\
    Gradients.min g = Some 5%Q /\
    Gradients.max g = Some 3%Q /\
    InterpolatingMap.min Rat.ltb (Gradients.map_ g) = Some (1, 3)%Q /\
    InterpolatingMap.max Rat.ltb (Gradients.map_ g) = Some (0, 5)%Q /\
    ~ (exists mn mx,
          Gradients.min g = Some mn /\ Gradients.max g = Some mx /\
          Gradients.is_minimum Rat.ltb (Gradients.values g) mn /\
          Gradients.is_maximum Rat.ltb (Gradients.values g) mx).
Proof.
  eexists. split; [reflexivity |]. split; [discriminate |].
  split; [reflexivity |]. split; [reflexivity |].
  split; [reflexivity |]. split; [reflexivity |].
  intros (mn & mx & Hmn & _ & [_ Hmin] & _).
  injection Hmn as <-.
  specialize (Hmin 3%Q (or_intror (or_introl eq_refl))). discriminate.
Qed.

(** C10, amended.  On a non-empty gradient [min()] returns the mapped
    value of the first stored node and [max()] that of the last stored
    node.  Where the wrapped map is sorted by key, these are the nodes of
    smallest and of largest key: no stored key is less than the key of
    the first node and none is greater than the key of the last one.
    Where the stored mapped values are non-decreasing along the storage
    order, the two results are the minimum and the maximum of the stored
    values. *)
Theorem gradient_min_max_ends :
  forall (Argument Result I : Type)
         (ltb : Argument -> Argument -> bool) (lt : Result -> Result -> bool)
         (Hkey : StrictWeakOrder ltb) (Hord : StrictWeakOrder lt)
         (g : Gradients.interpolating_gradient Argument Result I)
         (first : Argument * Result) (rest : list (Argument * Result)),
    Gradients.nodes g = first :: rest ->
    Gradients.min g = Some (snd first) /\
    Gradients.max g = Some (snd (last rest first)) /\
    (VectorMap.is_sorted ltb (InterpolatingMap.nodes_ (Gradients.map_ g))
       = true ->
     forall nd, In nd (Gradients.nodes g) ->
       ltb (fst nd) (fst first) = false /\
       ltb (fst (last rest first)) (fst nd) = false) /\
    (sortedb (fun a b => negb (lt b a)) (Gradients.values g) = true ->
     Gradients.is_minimum lt (Gradients.values g) (snd first) /\
     Gradients.is_maximum lt (Gradients.values g) (snd (last rest first))).
Proof.
  intros Argument Result I ltb lt Hkey Hord g first rest Hg.
  destruct (min_max_are_ends Argument Result I g first rest Hg) as [Hmin Hmax].
  split; [exact Hmin |]. split; [exact Hmax |]. split.
  { intros Hs nd Hin. rewrite Hg in Hin.
    apply (extreme_keys_at_ends Argument Result ltb first rest); [| exact Hin].
    rewrite <- Hg.
    exact (VectorMapFacts.sorted_is_ordered Argument Result ltb _ Hs). }
  unfold Gradients.values. rewrite Hg. cbn [map]. intros Hs.
  replace (snd (last rest first)) with (last (map snd rest) (snd first)).
  - apply (ends_of_sorted Result lt); exact Hs.
  - clear. revert first. induction rest as [| y rest IH]; intros first;
      [reflexivity |].
    destruct rest as [| z rest]; [reflexivity |].
    exact (IH first).
Qed.

Lemma gradient_min_max_ends_witness :
  exists g : Rat.linear_gradient,
    Rat.linear_gradient_il [(1, 5); (0, 3)]%Q = Some g /\
    Gradients.nodes g = [(0, 3); (1, 5)]%Q /\
    VectorMap.is_sorted Rat.ltb (InterpolatingMap.nodes_ (Gradients.map_ g))
      = true /\
    Gradients.min g = Some 3%Q /\ Gradients.max g = Some 5%Q /\
    (forall nd, In nd (Gradients.nodes g) ->
       Rat.ltb (fst nd) 0 = false /\ Rat.ltb 1 (fst nd) = false).
Proof.
  pose (g := Gradients.make
               (InterpolatingMap.make Interpolator.PiecewiseLinear
                  (VectorMap.make Rat.ltb [(0, 3); (1, 5)]%Q))).
  exists g. split; [reflexivity |]. split; [reflexivity |].
  split; [reflexivity |].
  destruct (gradient_min_max_ends Q Q Interpolator.piecewise_linear
              Rat.ltb Rat.ltb Rat_ltb_order Rat_ltb_order g
              (0, 3)%Q [(1, 5)%Q] eq_refl) as (Hmin & Hmax & Hkeys & _).
  split; [exact Hmin |]. split; [exact Hmax |].
  exact (Hkeys eq_refl).
Defined.

(* ================================================================== *)
(** * Further properties of the containers and the strategies           *)
(* ================================================================== *)

Module InsertFacts.
Import VectorMap.

Section Contents.
Variables K V : Type.
Variable ltb : K -> K -> bool.

Local Abbreviation vmap := (vector_map K V).

(** [insert] adds the value and nothing else. *)
Lemma insert_contents (m : vmap) (val : K * V) r :
  insert ltb m val = Some r ->
  Permutation (val :: mem_ m) (mem_ (fst r)) /\
  size (fst r) = S (size m) /\ snd r <= size m /\ comp_ (fst r) = comp_ m.
Proof.
  destruct (VectorMapFacts.insert_defined K V ltb m val) as (p & _ & Hp & ->).
  intros [= <-]. cbn [fst snd with_mem mem_ comp_].
  split; [| split; [| split; [exact Hp | reflexivity]]].
  - rewrite <- (firstn_skipn p (mem_ m)) at 1. apply Permutation_middle.
  - unfold size. cbn [mem_].
    apply eq_trans with (length (val :: mem_ m)); [| reflexivity].
    apply Permutation_length. symmetry.
    rewrite <- (firstn_skipn p (mem_ m)) at 1. apply Permutation_middle.
Qed.

Lemma insert_loop_contents input : forall (m : vmap) it r,
  insert_loop ltb m it input = Some r ->
  Permutation (input ++ mem_ m) (mem_ (fst r)) /\ comp_ (fst r) = comp_ m.
Proof.
  induction input as [| val rest IH]; intros m it r; cbn [insert_loop].
  - intros [= <-]. split; reflexivity.
  - destruct (insert ltb m val) as [r1 |] eqn:H1; cbn [bind]; [| discriminate].
    intros Hr. apply IH in Hr. destruct Hr as [Hperm Hcomp].
    destruct (insert_contents m val r1 H1) as (Hp1 & _ & _ & Hc1).
    split; [| congruence].
    etransitivity; [| exact Hperm]. cbn [app].
    etransitivity; [apply Permutation_middle |].
    apply Permutation_app_head. exact Hp1.
Qed.

(** Where no stored key is less than the new key the value goes to the
    front. *)
Lemma insert_at_front (m : vmap) (val : K * V) :
  (forall nd, In nd (mem_ m) -> ltb (fst nd) (fst val) = false) ->
  insert ltb m val = Some (with_mem m (val :: mem_ m), 0).
Proof.
  intros Hall.
  destruct (VectorMapFacts.insert_defined K V ltb m val) as (p & Hlb & Hp & ->).
  assert (p = 0) as ->; [| reflexivity].
  unfold lower_bound, lower_bound_static, begin_, end_ in Hlb.
  rewrite VectorMapFacts.lower_bound_loop_search, Nat.sub_0_r in Hlb.
  apply search_loop_partition in Hlb; [| lia |].
  - destruct Hlb as [Hlo _]. destruct p as [| p]; trivial.
    destruct (nth_error (mem_ m) 0) as [nd |] eqn:Hnd.
    + pose proof (Hlo 0 nd ltac:(lia) Hnd) as Ht. cbv beta in Ht.
      rewrite (Hall nd) in Ht; [discriminate | eapply nth_error_In; eauto].
    + apply nth_error_None in Hnd. unfold size in Hp. lia.
  - intros i j a b _ _ _ _ Hb Hpb. cbv beta in Hpb.
    rewrite (Hall b) in Hpb; [discriminate | eapply nth_error_In; eauto].
Qed.

(** So a run of values none of whose keys is less than another one, put
    into a map of such keys, ends up in front and in reverse order. *)
Lemma insert_loop_reverses input : forall (m : vmap) it,
  (forall a b, In a (input ++ mem_ m) -> In b (input ++ mem_ m) ->
               ltb (fst a) (fst b) = false) ->
  exists it',
    insert_loop ltb m it input = Some (with_mem m (rev input ++ mem_ m), it').
Proof.
  induction input as [| val rest IH]; intros m it Hall; cbn [insert_loop].
  - exists it. destruct m; reflexivity.
  - rewrite insert_at_front.
    2:{ intros nd Hnd. apply Hall; apply in_or_app;
        [right; exact Hnd | left; left; reflexivity]. }
    cbn [bind fst snd].
    destruct (IH (with_mem m (val :: mem_ m)) 0) as [it' Hit'].
    { cbn [with_mem mem_]. intros a b Ha Hb.
      apply Hall; cbn [app]; [clear Hb; rename Ha into H | clear Ha; rename Hb into H];
        apply in_app_or in H; destruct H as [H | [H | H]];
        try (left; exact H); right; apply in_or_app; auto. }
    exists it'. etransitivity; [exact Hit' |].
    unfold with_mem. cbn [mem_ comp_ rev].
    rewrite <- app_assoc. reflexivity.
Qed.

End Contents.

Section Lookup.
Variables K V : Type.
Variable ltb : K -> K -> bool.
Variable eqb : K -> K -> bool.
Context {ltb_order : StrictWeakOrder ltb}.

Local Abbreviation vmap := (vector_map K V).

(** After [insert((k, v))] the lower bound of [k] is where the new node
    stands. *)
Lemma lower_bound_after_insert (m : vmap) k v r :
  is_sorted ltb m = true ->
  insert ltb m (k, v) = Some r ->
  lower_bound ltb (fst r) k = Some (snd r) /\
  nth_error (mem_ (fst r)) (snd r) = Some (k, v).
Proof.
  intros Hs Hr.
  pose proof (VectorMapFacts.insert_sorted K V ltb m (k, v) r Hs Hr) as Hs'.
  destruct (VectorMapFacts.insert_defined K V ltb m (k, v))
    as (p & Hlb & Hp & Hins).
  rewrite Hins in Hr. injection Hr as <-. cbn [fst snd] in *.
  destruct (VectorMapFacts.lower_bound_spec K V ltb m k Hs)
    as (p0 & Hlb0 & _ & Hspec).
  assert (p0 = p) as -> by congruence.
  destruct (nth_error_inserted K V (mem_ m) p (k, v) Hp)
    as (Hat & Hbefore & _).
  split; [| exact Hat].
  destruct (VectorMapFacts.lower_bound_spec K V ltb _ k Hs')
    as (q & Hq & _ & Hqs).
  rewrite Hq. f_equal. cbn [with_mem mem_] in Hqs.
  destruct (Nat.lt_trichotomy q p) as [Hlt | [Heq | Hgt]]; trivial.
  - destruct (nth_error (mem_ m) q) as [nd |] eqn:Hnd.
    + pose proof (proj1 (Hspec q nd Hnd) Hlt) as Hk.
      pose proof (eq_trans (Hbefore q Hlt) Hnd) as Hnd'.
      apply (Hqs q nd Hnd') in Hk. lia.
    + apply nth_error_None in Hnd. unfold size in Hp. lia.
  - pose proof (proj1 (Hqs p (k, v) Hat) Hgt) as Hkk. cbn [fst] in Hkk.
    rewrite ltb_irrefl in Hkk. discriminate.
Qed.

End Lookup.
End InsertFacts.

(* ------------------------------------------------------------------ *)
(** ** [vector_map]: lookup after insertion                             *)
(* ------------------------------------------------------------------ *)

(** Insert, then find: on a sorted map, and for a key that compares equal
    to itself, [insert((k, v))] returns a position, and [find(k)] on the
    new map returns that very position, which holds [(k, v)]. *)
Theorem insert_then_find :
  forall (K V : Type) (ltb eqb : K -> K -> bool) (Hord : StrictWeakOrder ltb)
         (m : VectorMap.vector_map K V) (k : K) (v : V),
    VectorMap.is_sorted ltb m = true ->
    eqb k k = true ->
    exists m' p,
      VectorMap.insert ltb m (k, v) = Some (m', p) /\
      VectorMap.find ltb eqb m' k = Some p /\
      nth_error (VectorMap.mem_ m') p = Some (k, v) /\
      p < VectorMap.size m'.
Proof.
  intros K V ltb eqb Hord m k v Hs Hk.
  destruct (VectorMapFacts.insert_defined K V ltb m (k, v))
    as (p & _ & _ & Hins).
  eexists _, p. split; [exact Hins |].
  destruct (InsertFacts.lower_bound_after_insert K V ltb m k v _ Hs Hins)
    as [Hlb Hat].
  cbn [fst snd] in Hlb, Hat.
  destruct (VectorMapFacts.find_cases K V ltb eqb
              (VectorMap.with_mem m
                 (firstn p (VectorMap.mem_ m) ++ (k, v)
                    :: skipn p (VectorMap.mem_ m))) k)
    as (it & Hit & _ & _ & Hfind).
  assert (it = p) as -> by congruence.
  rewrite (Hfind (k, v) Hat). cbn [fst]. rewrite Hk.
  split; [reflexivity |]. split; [exact Hat |].
  apply nth_error_Some. unfold VectorMap.value_type in *. congruence.
Qed.

Lemma insert_then_find_witness :
  VectorMap.is_sorted Z.ltb IntMap.with_duplicates = true /\
  Z.eqb 2 2 = true /\
  exists m' p,
    VectorMap.insert Z.ltb IntMap.with_duplicates (2, 23)%Z = Some (m', p) /\
    VectorMap.find Z.ltb Z.eqb m' 2%Z = Some p.
Proof.
  split; [reflexivity |]. split; [reflexivity |].
  destruct (insert_then_find Z Z Z.ltb Z.eqb Z_ltb_order IntMap.with_duplicates
              2%Z 23%Z eq_refl eq_refl) as (m' & p & Hi & Hf & _).
  exists m', p. split; assumption.
Defined.

(* ------------------------------------------------------------------ *)
(** ** [vector_map]: what insertion and construction store              *)
(* ------------------------------------------------------------------ *)

(** Range insertion returns for every map and every input, adds exactly
    the input's nodes to the stored ones (as a multiset), and keeps a
    sorted map sorted. *)
Theorem insert_range_contents :
  forall (K V : Type) (ltb : K -> K -> bool) (Hord : StrictWeakOrder ltb)
         (m : VectorMap.vector_map K V) (input : list (K * V)),
    exists m' it,
      VectorMap.insert_range ltb m input = Some (m', it) /\
      Permutation (input ++ VectorMap.mem_ m) (VectorMap.mem_ m') /\
      VectorMap.size m' = length input + VectorMap.size m /\
      (VectorMap.is_sorted ltb m = true -> VectorMap.is_sorted ltb m' = true).
Proof.
  intros K V ltb Hord m input.
  destruct (VectorMapFacts.insert_loop_defined K V ltb input m (VectorMap.end_ m))
    as [[m' it] Hr].
  exists m', it. split; [exact Hr |].
  destruct (InsertFacts.insert_loop_contents K V ltb input m _ _ Hr)
    as [Hperm _]. cbn [fst] in Hperm.
  split; [exact Hperm |]. split.
  - unfold VectorMap.size. rewrite <- (Permutation_length Hperm).
    apply length_app.
  - intros Hs.
    exact (VectorMapFacts.insert_loop_sorted K V ltb input m _ _ Hs Hr).
Qed.

Lemma insert_range_contents_witness :
  exists m' it,
    VectorMap.insert_range Z.ltb IntMap.after_calls [(3, 30); (0, 1)]%Z
      = Some (m', it) /\
    VectorMap.size m' = 6.
Proof.
  destruct (insert_range_contents Z Z Z.ltb Z_ltb_order IntMap.after_calls
              [(3, 30); (0, 1)]%Z) as (m' & it & Hr & _ & Hsz & _).
  exists m', it. split; [exact Hr | exact Hsz].
Defined.

(** Construction from an initializer list or from a range, and [assign]
    on any map, return for every input, in whatever order it comes, and
    leave a sorted map that holds exactly the input's nodes; the
    comparison object is the one given (for [assign], the one the map
    had). *)
Theorem construction_sorts_input :
  forall (K V : Type) (ltb : K -> K -> bool) (Hord : StrictWeakOrder ltb)
         (comp : K -> K -> bool) (old : VectorMap.vector_map K V)
         (input : list (K * V)),
    (exists m,
        VectorMap.from_range ltb comp input = Some m /\
        VectorMap.from_il ltb comp input = Some m /\
        VectorMap.is_sorted ltb m = true /\
        Permutation input (VectorMap.mem_ m) /\
        VectorMap.key_comp m = comp) /\
    (exists m,
        VectorMap.assign ltb old input = Some m /\
        VectorMap.assign_il ltb old input = Some m /\
        VectorMap.is_sorted ltb m = true /\
        Permutation input (VectorMap.mem_ m) /\
        VectorMap.key_comp m = VectorMap.key_comp old).
Proof.
  intros K V ltb Hord comp old input.
  assert (Hgen : forall m0 : VectorMap.vector_map K V,
             VectorMap.mem_ m0 = [] ->
             exists r, VectorMap.insert_range ltb m0 input = Some r /\
               VectorMap.is_sorted ltb (fst r) = true /\
               Permutation input (VectorMap.mem_ (fst r)) /\
               VectorMap.comp_ (fst r) = VectorMap.comp_ m0).
  { intros m0 Hm0.
    destruct (VectorMapFacts.insert_loop_defined K V ltb input m0
                (VectorMap.end_ m0)) as [r Hr].
    exists r. split; [exact Hr |].
    destruct (InsertFacts.insert_loop_contents K V ltb input m0 _ _ Hr)
      as [Hperm Hcomp].
    rewrite Hm0, app_nil_r in Hperm.
    split; [| split; assumption].
    apply (VectorMapFacts.insert_loop_sorted K V ltb input m0
             (VectorMap.end_ m0) r); [| exact Hr].
    unfold VectorMap.is_sorted. rewrite Hm0. reflexivity. }
  split.
  - destruct (Hgen (VectorMap.empty_map V comp) eq_refl)
      as (r & Hr & Hs & Hp & Hc).
    exists (fst r). unfold VectorMap.from_range, VectorMap.from_il,
      VectorMap.insert_il. rewrite Hr. cbn [bind].
    repeat split; assumption.
  - destruct (Hgen (VectorMap.clear old) eq_refl) as (r & Hr & Hs & Hp & Hc).
    exists (fst r). unfold VectorMap.assign_il, VectorMap.assign.
    rewrite Hr. cbn [bind].
    repeat split; assumption.
Qed.

Lemma construction_sorts_input_witness :
  exists m,
    VectorMap.from_range Z.ltb IntMap.less [(3, 30); (1, 10); (2, 20)]%Z
      = Some m /\
    VectorMap.is_sorted Z.ltb m = true.
Proof.
  destruct (proj1 (construction_sorts_input Z Z Z.ltb Z_ltb_order IntMap.less
                     IntMap.empty_map [(3, 30); (1, 10); (2, 20)]%Z))
    as (m & Hm & _ & Hs & _).
  exists m. split; assumption.
Defined.

(** Values of one key are stored in the reverse of the order in which
    they were inserted: a range none of whose keys is less than another
    one, inserted into the empty map, is stored back to front. *)
Theorem equal_keys_stored_in_reverse :
  forall (K V : Type) (ltb : K -> K -> bool) (comp : K -> K -> bool)
         (input : list (K * V)),
    (forall a b, In a input -> In b input -> ltb (fst a) (fst b) = false) ->
    VectorMap.from_range ltb comp input =
      Some (VectorMap.make comp (rev input)).
Proof.
  intros K V ltb comp input Hall.
  destruct (InsertFacts.insert_loop_reverses K V ltb input
              (VectorMap.empty_map V comp)
              (VectorMap.end_ (VectorMap.empty_map V comp))) as [it Hit].
  { cbn [VectorMap.empty_map VectorMap.mem_]. rewrite app_nil_r. exact Hall. }
  unfold VectorMap.from_range, VectorMap.insert_range. rewrite Hit.
  cbn [bind fst VectorMap.empty_map VectorMap.mem_ VectorMap.with_mem
       VectorMap.comp_]. rewrite app_nil_r. reflexivity.
Qed.

Lemma equal_keys_stored_in_reverse_witness :
  (forall a b, In a [(2, 20); (2, 21); (2, 22)]%Z ->
               In b [(2, 20); (2, 21); (2, 22)]%Z ->
               Z.ltb (fst a) (fst b) = false) /\
  VectorMap.from_range Z.ltb IntMap.less [(2, 20); (2, 21); (2, 22)]%Z =
    Some (VectorMap.make IntMap.less [(2, 22); (2, 21); (2, 20)]%Z).
Proof.
  assert (Hall : forall a b, In a [(2, 20); (2, 21); (2, 22)]%Z ->
                             In b [(2, 20); (2, 21); (2, 22)]%Z ->
                             Z.ltb (fst a) (fst b) = false).
  { intros a b [<- | [<- | [<- | []]]] [<- | [<- | [<- | []]]]; reflexivity. }
  split; [exact Hall |].
  exact (equal_keys_stored_in_reverse Z Z Z.ltb IntMap.less
           [(2, 20); (2, 21); (2, 22)]%Z Hall).
Defined.

(* ------------------------------------------------------------------ *)
(** ** [vector_map]: [front], [back] and the ordering operators         *)
(* ------------------------------------------------------------------ *)

(** On a sorted map that is not empty [front()] and [back()] are
    defined, no stored key is less than the key of [front()] and none is
    greater than the key of [back()]. *)
Theorem front_back_extreme_keys :
  forall (K V : Type) (ltb : K -> K -> bool) (Hord : StrictWeakOrder ltb)
         (m : VectorMap.vector_map K V),
    VectorMap.is_sorted ltb m = true ->
    VectorMap.empty m = false ->
    exists f b,
      VectorMap.front m = Some f /\ VectorMap.back m = Some b /\
      In f (VectorMap.mem_ m) /\ In b (VectorMap.mem_ m) /\
      forall nd, In nd (VectorMap.mem_ m) ->
                 ltb (fst nd) (fst f) = false /\ ltb (fst b) (fst nd) = false.
Proof.
  intros K V ltb Hord m Hs Hne.
  pose proof (VectorMapFacts.sorted_is_ordered K V ltb m Hs) as Ho.
  unfold VectorMap.empty, VectorMap.front, VectorMap.back in *.
  destruct (VectorMap.mem_ m) as [| first rest] eqn:Hmem; [discriminate |].
  exists first, (last rest first). cbn [length].
  pose proof (nth_error_last (K * V) rest first) as Hlast.
  split; [reflexivity |]. split; [exact Hlast |].
  split; [left; reflexivity |].
  split; [eapply nth_error_In; exact Hlast |].
  intros nd Hnd. apply In_nth_error in Hnd. destruct Hnd as [j Hj].
  assert (Hjl : j < length (first :: rest))
    by (apply nth_error_Some; unfold VectorMap.value_type in *; congruence).
  cbn [length] in Hjl. split.
  - destruct j as [| j].
    + injection Hj as <-. apply ltb_irrefl.
    + apply negb_true_iff.
      apply (Ho 0 (S j) first nd); [lia | reflexivity | exact Hj].
  - destruct (Nat.eq_dec j (length rest)) as [-> | Hne'].
    + assert (nd = last rest first) as ->
        by (unfold VectorMap.value_type in *; congruence).
      apply ltb_irrefl.
    + apply negb_true_iff.
      apply (Ho j (length rest) nd (last rest first));
        [lia | exact Hj | exact Hlast].
Qed.

Lemma front_back_extreme_keys_witness :
  VectorMap.is_sorted Z.ltb IntMap.with_duplicates = true /\
  VectorMap.empty IntMap.with_duplicates = false /\
  exists f b,
    VectorMap.front IntMap.with_duplicates = Some f /\
    VectorMap.back IntMap.with_duplicates = Some b /\
    f = (1, 10)%Z /\ b = (3, 30)%Z.
Proof.
  split; [reflexivity |]. split; [reflexivity |].
  destruct (front_back_extreme_keys Z Z Z.ltb Z_ltb_order
              IntMap.with_duplicates eq_refl eq_refl)
    as (f & b & Hf & Hb & _).
  exists f, b. split; [exact Hf |]. split; [exact Hb |].
  injection Hf as <-. injection Hb as <-. split; reflexivity.
Defined.

Section Lexicographic.
Variable A : Type.
Variable lt : A -> A -> bool.
Hypothesis lt_irrefl : forall x, lt x x = false.
Hypothesis lt_asym : forall x y, lt x y = true -> lt y x = false.

Lemma lexicographic_irrefl (a : list A) :
  std_lexicographical_compare lt a a = false.
Proof.
  induction a as [| x a IH]; [reflexivity |].
  cbn [std_lexicographical_compare]. rewrite lt_irrefl. exact IH.
Qed.

Lemma lexicographic_asym (a : list A) : forall b,
  std_lexicographical_compare lt a b = true ->
  std_lexicographical_compare lt b a = false.
Proof.
  induction a as [| x a IH]; intros [| y b];
    cbn [std_lexicographical_compare]; trivial; try discriminate.
  destruct (lt x y) eqn:Hxy.
  - intros _. rewrite (lt_asym x y Hxy). reflexivity.
  - destruct (lt y x) eqn:Hyx; [discriminate |]. apply IH.
Qed.

End Lexicographic.

Section PairOrder.
Variables K V : Type.
Variable ltb : K -> K -> bool.
Variable vltb : V -> V -> bool.
Context {ltb_order : StrictWeakOrder ltb}.
Context {vltb_order : StrictWeakOrder vltb}.

Lemma pair_ltb_irrefl (a : K * V) : VectorMap.pair_ltb ltb vltb a a = false.
Proof.
  unfold VectorMap.pair_ltb. rewrite !ltb_irrefl. reflexivity.
Qed.

Lemma pair_ltb_asym (a b : K * V) :
  VectorMap.pair_ltb ltb vltb a b = true ->
  VectorMap.pair_ltb ltb vltb b a = false.
Proof.
  unfold VectorMap.pair_ltb. intros H.
  apply orb_true_iff in H. destruct H as [H | H].
  - rewrite (ltb_asym ltb _ _ H), H. reflexivity.
  - apply andb_true_iff in H. destruct H as [H1 H2].
    apply negb_true_iff in H1. rewrite H1, (ltb_asym vltb _ _ H2).
    apply andb_false_r.
Qed.

End PairOrder.

(** The ordering operators of two maps: [operator<] is irreflexive and
    asymmetric; [operator>] is its negation and not its converse, so
    [a > a] holds for every map [a], and [a < b] gives [b > a]. *)
Theorem ordering_operators :
  forall (K V : Type) (ltb : K -> K -> bool) (vltb : V -> V -> bool)
         (Hk : StrictWeakOrder ltb) (Hv : StrictWeakOrder vltb)
         (a b : VectorMap.vector_map K V),
    VectorMap.op_lt ltb vltb a a = false /\
    VectorMap.op_gt ltb vltb a a = true /\
    (VectorMap.op_lt ltb vltb a b = true ->
     VectorMap.op_lt ltb vltb b a = false /\
     VectorMap.op_gt ltb vltb b a = true /\
     VectorMap.op_gt ltb vltb a b = false).
Proof.
  intros K V ltb vltb Hk Hv a b.
  assert (Hirr : VectorMap.op_lt ltb vltb a a = false).
  { apply lexicographic_irrefl. apply (pair_ltb_irrefl K V ltb vltb). }
  split; [exact Hirr |].
  split; [unfold VectorMap.op_gt; rewrite Hirr; reflexivity |].
  intros Hab.
  assert (Hba : VectorMap.op_lt ltb vltb b a = false).
  { apply (lexicographic_asym (K * V) (VectorMap.pair_ltb ltb vltb));
      [apply (pair_ltb_asym K V ltb vltb) | exact Hab]. }
  unfold VectorMap.op_gt. rewrite Hba, Hab. repeat split.
Qed.

Lemma ordering_operators_witness :
  VectorMap.op_lt Z.ltb Z.ltb IntMap.after_calls IntMap.with_duplicates = true /\
  VectorMap.op_gt Z.ltb Z.ltb IntMap.after_calls IntMap.after_calls = true.
Proof.
  destruct (ordering_operators Z Z Z.ltb Z.ltb Z_ltb_order Z_ltb_order
              IntMap.after_calls IntMap.with_duplicates) as (_ & Hgt & _).
  split; [reflexivity | exact Hgt].
Defined.

(** Two maps of which the first is a proper front part of the second:
    all of [a < b], [a <= b], [a == b] and [a >= b] hold, and [a > b] does
    not. *)
Theorem operators_on_a_prefix :
  forall (K V : Type) (ltb eqb : K -> K -> bool) (veqb vltb : V -> V -> bool)
         (Hk : StrictWeakOrder ltb) (Hv : StrictWeakOrder vltb)
         (a b : VectorMap.vector_map K V) (nd : K * V) (tail : list (K * V)),
    (forall k, eqb k k = true) -> (forall v, veqb v v = true) ->
    VectorMap.mem_ b = VectorMap.mem_ a ++ nd :: tail ->
    VectorMap.op_lt ltb vltb a b = true /\
    VectorMap.op_le ltb eqb veqb vltb a b = Some true /\
    VectorMap.op_eq eqb veqb a b = Some true /\
    VectorMap.op_ge ltb eqb veqb vltb a b = Some true /\
    VectorMap.op_gt ltb vltb a b = false.
Proof.
  intros K V ltb eqb veqb vltb Hk Hv a b nd tail Heqb Hveqb Hb.
  assert (Hlt : VectorMap.op_lt ltb vltb a b = true).
  { unfold VectorMap.op_lt. rewrite Hb.
    generalize (VectorMap.mem_ a). intros l0.
    induction l0 as [| x l IH]; [reflexivity |].
    cbn [app std_lexicographical_compare].
    rewrite (pair_ltb_irrefl K V ltb vltb). exact IH. }
  assert (Heq : VectorMap.op_eq eqb veqb a b = Some true).
  { unfold VectorMap.op_eq. rewrite Hb.
    generalize (VectorMap.mem_ a). intros l0.
    induction l0 as [| x l IH]; [reflexivity |].
    cbn [app std_equal]. unfold VectorMap.pair_eqb at 1.
    rewrite Heqb, Hveqb. exact IH. }
  unfold VectorMap.op_le, VectorMap.op_ge, VectorMap.op_gt.
  rewrite Heq, Hlt. repeat split.
Qed.

Lemma operators_on_a_prefix_witness :
  let a := VectorMap.make Z.ltb [(1, 10)]%Z in
  let b := VectorMap.make Z.ltb [(1, 10); (2, 20)]%Z in
  VectorMap.op_lt Z.ltb Z.ltb a b = true /\
  VectorMap.op_ge Z.ltb Z.eqb Z.eqb Z.ltb a b = Some true.
Proof.
  cbv zeta.
  destruct (operators_on_a_prefix Z Z Z.ltb Z.eqb Z.eqb Z.ltb
              Z_ltb_order Z_ltb_order
              (VectorMap.make Z.ltb [(1, 10)]%Z)
              (VectorMap.make Z.ltb [(1, 10); (2, 20)]%Z)
              (2, 20)%Z [] Z.eqb_refl Z.eqb_refl eq_refl)
    as (Hlt & _ & _ & Hge & _).
  split; [exact Hlt | exact Hge].
Defined.

(* ------------------------------------------------------------------ *)
(** ** [interpolating_map]: the statistics [min] and [max]              *)
(* ------------------------------------------------------------------ *)

Section MinElement.
Variable A : Type.
Variable lt : A -> A -> bool.
Context {lt_order : StrictWeakOrder lt}.

(** The scan of [std::min_element]: [best], at offset [ibest], is the
    first smallest element of the part [pre] seen so far. *)
Lemma min_element_from_spec (l : list A) : forall pre best ibest,
  nth_error (pre ++ l) ibest = Some best ->
  ibest < length pre ->
  (forall x, In x pre -> lt x best = false) ->
  (forall j y, j < ibest -> nth_error (pre ++ l) j = Some y ->
               lt best y = true) ->
  exists b,
    nth_error (pre ++ l) (min_element_from lt best ibest (length pre) l)
      = Some b /\
    (forall x, In x (pre ++ l) -> lt x b = false) /\
    (forall j y, j < min_element_from lt best ibest (length pre) l ->
                 nth_error (pre ++ l) j = Some y -> lt b y = true).
Proof.
  induction l as [| x l IH]; intros pre best ibest Hbest Hib Hmin Hfirst;
    cbn [min_element_from].
  - exists best. rewrite app_nil_r in *. repeat split; assumption.
  - assert (Hsplit : pre ++ x :: l = (pre ++ [x]) ++ l)
      by (rewrite <- app_assoc; reflexivity).
    assert (Hlen : S (length pre) = length (pre ++ [x]))
      by (rewrite length_app; cbn; lia).
    rewrite Hsplit in *. rewrite Hlen.
    destruct (lt x best) eqn:Hx.
    + apply IH.
      * rewrite nth_error_app1 by (rewrite <- Hlen; lia).
        rewrite nth_error_app2 by lia. rewrite Nat.sub_diag. reflexivity.
      * lia.
      * intros y Hy. apply in_app_or in Hy. destruct Hy as [Hy | [<- | []]].
        -- destruct (lt y x) eqn:Hyx; trivial.
           pose proof (Hmin y Hy) as Hc.
           rewrite (ltb_trans y x best Hyx Hx) in Hc. discriminate.
        -- apply ltb_irrefl.
      * intros j y Hj Hy.
        rewrite nth_error_app1 in Hy by (rewrite <- Hlen; lia).
        rewrite nth_error_app1 in Hy by lia.
        destruct (ltb_negtrans x y best Hx) as [H | H]; trivial.
        rewrite (Hmin y) in H; [discriminate | eapply nth_error_In; eauto].
    + apply IH; trivial.
      * lia.
      * intros y Hy. apply in_app_or in Hy. destruct Hy as [Hy | [<- | []]];
          [apply Hmin, Hy | exact Hx].
Qed.

Lemma std_min_element_spec (l : list A) :
  l <> [] ->
  exists b,
    nth_error l (std_min_element lt l) = Some b /\
    (forall x, In x l -> lt x b = false) /\
    (forall j y, j < std_min_element lt l -> nth_error l j = Some y ->
                 lt b y = true).
Proof.
  destruct l as [| x l]; [congruence |]. intros _.
  apply (min_element_from_spec l [x] x 0); trivial.
  - cbn; lia.
  - intros y [<- | []]. apply ltb_irrefl.
  - intros j y Hj. lia.
Qed.

End MinElement.

Lemma max_element_is_min_of_converse (A : Type) (lt : A -> A -> bool)
      (l : list A) : forall best ibest i,
  max_element_from lt best ibest i l =
  min_element_from (fun a b => lt b a) best ibest i l.
Proof.
  induction l as [| x l IH]; intros best ibest i; [reflexivity |].
  cbn [max_element_from min_element_from]. rewrite !IH. reflexivity.
Qed.

Lemma converse_order (A : Type) (lt : A -> A -> bool) :
  StrictWeakOrder lt -> StrictWeakOrder (fun a b => lt b a).
Proof.
  intros H. split.
  - intros a. apply ltb_irrefl.
  - intros a b c Hab Hbc. exact (ltb_trans c b a Hbc Hab).
  - intros a b c Hac. destruct (ltb_negtrans c b a Hac) as [Hl | Hr]; auto.
Qed.

Lemma by_value_order (K V : Type) (vltb : V -> V -> bool) :
  StrictWeakOrder vltb ->
  StrictWeakOrder (fun a b : K * V => vltb (snd a) (snd b)).
Proof.
  intros H. split.
  - intros a. apply ltb_irrefl.
  - intros a b c. apply ltb_trans.
  - intros a b c. apply ltb_negtrans.
Qed.

(** The free functions [min] and [max] on a map that is not empty return
    a stored node whose mapped value no stored value is less than (for
    [max]: greater than), and among such nodes the first one: every node
    in front of it has a strictly greater (smaller) value.  On the empty
    map they read [end()]. *)
Theorem statistics_min_max :
  forall (K V I : Type) (vltb : V -> V -> bool) (Hv : StrictWeakOrder vltb)
         (m : InterpolatingMap.interpolating_map K V I),
    let mem := VectorMap.mem_ (InterpolatingMap.nodes_ m) in
    (mem = [] ->
     InterpolatingMap.min vltb m = None /\ InterpolatingMap.max vltb m = None) /\
    (mem <> [] ->
     exists imin imax lo hi,
       InterpolatingMap.min vltb m = Some lo /\
       InterpolatingMap.max vltb m = Some hi /\
       nth_error mem imin = Some lo /\ nth_error mem imax = Some hi /\
       (forall nd, In nd mem ->
          vltb (snd nd) (snd lo) = false /\ vltb (snd hi) (snd nd) = false) /\
       (forall j nd, j < imin -> nth_error mem j = Some nd ->
          vltb (snd lo) (snd nd) = true) /\
       (forall j nd, j < imax -> nth_error mem j = Some nd ->
          vltb (snd nd) (snd hi) = true)).
Proof.
  intros K V I vltb Hv m mem. unfold InterpolatingMap.min, InterpolatingMap.max.
  fold mem. split.
  - intros ->. split; reflexivity.
  - intros Hne.
    pose proof (by_value_order K V vltb Hv) as Hnodes.
    pose proof (converse_order _ _ Hnodes) as Hconv.
    destruct (std_min_element_spec (K * V)
                (fun a b : K * V => vltb (snd a) (snd b)) mem Hne)
      as (lo & Hlo & Hlomin & Hlofirst).
    destruct (std_min_element_spec (K * V)
                (fun a b : K * V => vltb (snd b) (snd a)) mem Hne)
      as (hi & Hhi & Himax & Hifirst).
    assert (Hmax : std_max_element (fun a b : K * V => vltb (snd a) (snd b)) mem
                   = std_min_element (fun a b : K * V => vltb (snd b) (snd a)) mem).
    { destruct mem as [| x l]; [reflexivity |].
      apply (max_element_is_min_of_converse (K * V)
               (fun a b : K * V => vltb (snd a) (snd b))). }
    rewrite Hmax.
    eexists _, _, lo, hi.
    split; [exact Hlo |]. split; [exact Hhi |].
    split; [exact Hlo |]. split; [exact Hhi |].
    split; [| split].
    + intros nd Hnd. split; [apply Hlomin, Hnd | apply Himax, Hnd].
    + exact Hlofirst.
    + exact Hifirst.
Qed.

Lemma statistics_min_max_witness :
  exists lo hi,
    InterpolatingMap.min Rat.ltb
      (InterpolatingMap.make Interpolator.PiecewiseLinear
         (VectorMap.make Rat.ltb [(0, 5); (1, 3); (2, 7); (3, 3)]%Q)) = Some lo /\
    InterpolatingMap.max Rat.ltb
      (InterpolatingMap.make Interpolator.PiecewiseLinear
         (VectorMap.make Rat.ltb [(0, 5); (1, 3); (2, 7); (3, 3)]%Q)) = Some hi /\
    lo = (1, 3)%Q /\ hi = (2, 7)%Q.
Proof.
  destruct (proj2 (statistics_min_max Q Q Interpolator.piecewise_linear
              Rat.ltb Rat_ltb_order
              (InterpolatingMap.make Interpolator.PiecewiseLinear
                 (VectorMap.make Rat.ltb [(0, 5); (1, 3); (2, 7); (3, 3)]%Q)))
              ltac:(discriminate))
    as (imin & imax & lo & hi & Hlo & Hhi & _).
  exists lo, hi. split; [exact Hlo |]. split; [exact Hhi |].
  injection Hlo as <-. injection Hhi as <-. split; reflexivity.
Defined.

(* ------------------------------------------------------------------ *)
(** ** The strategies: no read outside the range, brackets              *)
(* ------------------------------------------------------------------ *)

Module StrategyFacts.
Import Interpolator.

Section Defined.
Variable F : Type.
Variable zero : F.
Variables add sub mul div : F -> F -> F.
Variables ltb leb : F -> F -> bool.
Variable log : F -> F.

Local Abbreviation node := (F * F)%type.


Lemma nth_error_defined (nodes : list node) i :
  i < length nodes -> exists nd, nth_error nodes i = Some nd.
Proof.
  intros Hi. destruct (nth_error nodes i) as [nd |] eqn:E; [eauto |].
  apply nth_error_None in E. lia.
Qed.

Lemma clamp_in_range n p : 2 <= n -> p <= n -> 1 <= clamp n p <= n - 1.
Proof.
  intros Hn Hp. unfold clamp.
  destruct (Nat.eqb_spec p 0); [lia |].
  destruct (Nat.eqb_spec p n); lia.
Qed.




End Defined.

Section Brackets.
Variable F : Type.
Variable zero : F.
Variables add sub mul div : F -> F -> F.
Variables ltb leb : F -> F -> bool.
Variable log : F -> F.
Context {ltb_order : StrictWeakOrder ltb}.
Hypothesis leb_ltb : forall a b, leb a b = negb (ltb b a).

Local Abbreviation node := (F * F)%type.

(** The lower-bound position and the two nodes that the linear
    strategies read, on at least two ascending nodes. *)
Lemma bracket (nodes : list node) (x : F) :
  2 <= length nodes -> ascending ltb nodes = true ->
  exists p n0 n1,
    std_lower_bound (fun (a : node) (x : F) => ltb (fst a) x)
                    nodes 0 (length nodes) x = Some p /\
    p <= length nodes /\
    (forall i nd, nth_error nodes i = Some nd ->
                  (i < p <-> ltb (fst nd) x = true)) /\
    nth_error nodes (pred (clamp (length nodes) p)) = Some n0 /\
    nth_error nodes (clamp (length nodes) p) = Some n1.
Proof.
  intros Hn Hs.
  destruct (InterpolatorFacts.search_lt F ltb nodes x Hs) as (p & Hp & Hb & Hspec).
  pose proof (clamp_in_range (length nodes) p Hn Hb) as Hc.
  destruct (nth_error_defined F nodes (clamp (length nodes) p) ltac:(lia))
    as [n1 H1].
  destruct (nth_error_defined F nodes (pred (clamp (length nodes) p))
              ltac:(lia)) as [n0 H0].
  exists p, n0, n1. repeat split; try assumption; apply Hspec; assumption.
Qed.

(** Which nodes that is: the two around [x] inside the domain, the first
    two when no key is less than [x], the last two when every key is. *)
Lemma bracket_choice (nodes : list node) (x : F) p :
  2 <= length nodes -> p <= length nodes ->
  (forall i nd, nth_error nodes i = Some nd ->
                (i < p <-> ltb (fst nd) x = true)) ->
  (forall i n0 n1,
      nth_error nodes i = Some n0 -> nth_error nodes (S i) = Some n1 ->
      ltb (fst n0) x = true -> ltb (fst n1) x = false ->
      clamp (length nodes) p = S i) /\
  ((forall nd, In nd nodes -> ltb (fst nd) x = false) ->
   clamp (length nodes) p = 1) /\
  ((forall nd, In nd nodes -> ltb (fst nd) x = true) ->
   clamp (length nodes) p = length nodes - 1).
Proof.
  intros Hn Hb Hspec. split; [| split].
  - intros i n0 n1 H0 H1 Hlt Hge.
    assert (Hi : i < p) by (apply (Hspec i n0 H0), Hlt).
    assert (Hsi : ~ S i < p).
    { intros Hc. apply (Hspec (S i) n1 H1) in Hc. congruence. }
    assert (S i < length nodes) by (apply nth_error_Some; congruence).
    unfold clamp. destruct (Nat.eqb_spec p 0); [lia |].
    destruct (Nat.eqb_spec p (length nodes)); lia.
  - intros Hall. assert (p = 0) as ->; [| reflexivity].
    destruct p as [| p]; trivial.
    destruct (nth_error_defined F nodes 0 ltac:(lia)) as [nd Hnd].
    pose proof (proj1 (Hspec 0 nd Hnd) ltac:(lia)) as Hc.
    rewrite (Hall nd) in Hc; [discriminate | eapply nth_error_In; eauto].
  - intros Hall. assert (p = length nodes) as ->.
    { destruct (Nat.eq_dec p (length nodes)) as [| Hne]; trivial.
      destruct (nth_error_defined F nodes p ltac:(lia)) as [nd Hnd].
      pose proof (proj2 (Hspec p nd Hnd)
                    (Hall nd (nth_error_In _ _ Hnd))). lia. }
    unfold clamp. destruct (Nat.eqb_spec (length nodes) 0); [lia |].
    rewrite Nat.eqb_refl. lia.
Qed.

Lemma strictly_ascending_ordered (nodes : list node) :
  strictly_ascending ltb nodes = true ->
  ordered (fun a b : node => ltb (fst a) (fst b)) nodes.
Proof.
  intros H. apply sortedb_ordered; [| exact H].
  intros a b c. apply ltb_trans.
Qed.

(** With strictly ascending keys the searches stop right at (for "key <
    x") or right behind (for "key <= x") a stored key. *)
Lemma position_of_stored_key (nodes : list node) i k v p :
  strictly_ascending ltb nodes = true ->
  nth_error nodes i = Some (k, v) -> p <= length nodes ->
  ((forall j nd, nth_error nodes j = Some nd ->
                 (j < p <-> ltb (fst nd) k = true)) -> p = i) /\
  ((forall j nd, nth_error nodes j = Some nd ->
                 (j < p <-> leb (fst nd) k = true)) -> p = S i).
Proof.
  intros Hs Hi Hp. pose proof (strictly_ascending_ordered nodes Hs) as Ho.
  assert (Hil : i < length nodes) by (apply nth_error_Some; congruence).
  split; intros Hspec.
  - assert (Hge : ~ i < p).
    { intros Hc. apply (Hspec i (k, v) Hi) in Hc. cbn [fst] in Hc.
      rewrite ltb_irrefl in Hc. discriminate. }
    destruct (Nat.eq_dec p i) as [| Hne]; trivial.
    destruct (nth_error_defined F nodes p ltac:(lia)) as [nd Hnd].
    pose proof (Ho p i nd (k, v) ltac:(lia) Hnd Hi) as Hlt. cbn [fst] in Hlt.
    apply (Hspec p nd Hnd) in Hlt. lia.
  - assert (Hlt : i < p).
    { apply (Hspec i (k, v) Hi). cbn [fst].
      rewrite leb_ltb, ltb_irrefl. reflexivity. }
    destruct (Nat.eq_dec p (S i)) as [| Hne]; trivial.
    destruct (nth_error_defined F nodes (S i) ltac:(lia)) as [nd Hnd].
    pose proof (Ho i (S i) (k, v) nd ltac:(lia) Hi Hnd) as Hkn. cbn [fst] in Hkn.
    pose proof (proj1 (Hspec (S i) nd Hnd) ltac:(lia)) as Hle.
    rewrite leb_ltb, Hkn in Hle. discriminate.
Qed.

End Brackets.
End StrategyFacts.

Section LinearValues.
Variable F : Type.
Variable zero : F.
Variables add sub mul div : F -> F -> F.
Variables ltb leb : F -> F -> bool.
Variable log : F -> F.
Context {ltb_order : StrictWeakOrder ltb}.

(** The value of the two linear strategies once it is known which node
    the upper end of the bracket is. *)
Lemma values_at_bracket (nodes : list (F * F)) (x : F) j k0 v0 k1 v1 :
  2 <= length nodes -> Interpolator.ascending ltb nodes = true ->
  nth_error nodes j = Some (k0, v0) ->
  nth_error nodes (S j) = Some (k1, v1) ->
  (forall p, p <= length nodes ->
     (forall i nd, nth_error nodes i = Some nd ->
                   (i < p <-> ltb (fst nd) x = true)) ->
     Interpolator.clamp (length nodes) p = S j) ->
  Interpolator.piecewise_linear_apply zero add sub mul div ltb nodes x =
    Some (add v0 (mul (div (sub v1 v0) (sub k1 k0)) (sub x k0))) /\
  (leb x zero = false ->
   Interpolator.piecewise_log_linear_apply zero add sub mul div ltb leb log
     nodes x =
    Some (add v0 (mul (div (sub v1 v0) (log (div k1 k0))) (log (div x k0))))).
Proof.
  intros Hn Hs H0 H1 Hclamp.
  destruct (StrategyFacts.bracket F ltb nodes x Hn Hs)
    as (p & n0 & n1 & Hp & Hb & Hspec & Hn0 & Hn1).
  rewrite (Hclamp p Hb Hspec) in Hn0, Hn1. cbn [pred] in Hn0.
  assert (n0 = (k0, v0)) as -> by congruence.
  assert (n1 = (k1, v1)) as -> by congruence.
  unfold Interpolator.piecewise_linear_apply,
    Interpolator.piecewise_log_linear_apply, Interpolator.node,
    Interpolator.make_fp. cbv zeta.
  destruct (Nat.ltb_spec (length nodes) 1); [lia |].
  destruct (Nat.eqb_spec (length nodes) 1); [lia |].
  rewrite Hp. cbn [bind orb]. rewrite (Hclamp p Hb Hspec). cbn [pred].
  rewrite H0, H1. cbn [bind fst snd]. split; [reflexivity |].
  intros ->. reflexivity.
Qed.

End LinearValues.


(** The value of [piecewise_constant] at the key of a stored node. *)
Lemma constant_at_stored_key :
  forall (F : Type) (zero : F) (ltb leb : F -> F -> bool)
         (Hord : StrictWeakOrder ltb)
         (Hleb : forall a b, leb a b = negb (ltb b a))
         (nodes : list (F * F)) (k v : F),
    Interpolator.strictly_ascending ltb nodes = true ->
    In (k, v) nodes ->
    Interpolator.piecewise_constant_apply zero leb nodes k = Some v.
Proof.
  intros F zero ltb leb Hord Hleb nodes k v Hs Hin.
  destruct nodes as [| a [| b rest]].
  - destruct Hin.
  - destruct Hin as [-> | []]. reflexivity.
  - apply In_nth_error in Hin. destruct Hin as [i Hi].
    pose proof (InterpolatorFacts.strictly_ascending_ascending F ltb _ Hs) as Ha.
    destruct (InterpolatorFacts.piecewise_constant_value F zero ltb leb Hleb
                (a :: b :: rest) k ltac:(cbn; lia) Ha) as (p & Hspec & Hb & Hv).
    destruct (StrategyFacts.position_of_stored_key F ltb leb Hleb
                (a :: b :: rest) i k v p Hs Hi Hb) as [_ Hpos].
    rewrite Hv, (Hpos Hspec). cbn [pred].
    unfold Interpolator.node in *. rewrite Hi. reflexivity.
Qed.

(** Piecewise-constant evaluation at a stored key: with strictly
    ascending keys, evaluating at the key of a stored node returns that
    node's value, for a range of any size. *)
Theorem piecewise_constant_at_stored_key :
  forall (F : Type) (zero : F) (ltb leb : F -> F -> bool)
         (Hord : StrictWeakOrder ltb)
         (Hleb : forall a b, leb a b = negb (ltb b a))
         (nodes : list (F * F)) (k v : F),
    Interpolator.strictly_ascending ltb nodes = true ->
    In (k, v) nodes ->
    Interpolator.piecewise_constant_apply zero leb nodes k = Some v.
Proof.
  intros F zero ltb leb Hord Hleb nodes k v Hs Hin.
  exact (constant_at_stored_key F zero ltb leb Hord Hleb nodes k v Hs Hin).
Qed.

Lemma piecewise_constant_at_stored_key_witness :
  Interpolator.strictly_ascending Rat.ltb Rat.nodes2dbl = true /\
  In (10, 10)%Q Rat.nodes2dbl /\
  Rat.piecewise_constant_apply Rat.nodes2dbl 10%Q = Some 10%Q.
Proof.
  split; [reflexivity |]. split; [right; left; reflexivity |].
  exact (piecewise_constant_at_stored_key Q 0%Q Rat.ltb Rat.leb Rat_ltb_order
           Rat_leb_ltb Rat.nodes2dbl 10%Q 10%Q eq_refl
           (or_intror (or_introl eq_refl))).
Defined.

(** Which bracket [piecewise_linear] uses, on at least two ascending
    nodes: for [x] above key [k0] of node [i] and not above key [k1] of
    node [i+1] these two nodes; the first two nodes when no key is less
    than [x]; the last two nodes when every key is less than [x]. *)
Theorem piecewise_linear_bracket_choice :
  forall (F : Type) (zero : F) (add sub mul div : F -> F -> F)
         (ltb : F -> F -> bool) (Hord : StrictWeakOrder ltb)
         (nodes : list (F * F)) (x : F) (i : nat) (k0 v0 k1 v1 : F),
    2 <= length nodes ->
    Interpolator.ascending ltb nodes = true ->
    nth_error nodes i = Some (k0, v0) ->
    nth_error nodes (S i) = Some (k1, v1) ->
    (ltb k0 x = true /\ ltb k1 x = false) \/
    (i = 0 /\ forall nd, In nd nodes -> ltb (fst nd) x = false) \/
    (S i = length nodes - 1 /\ forall nd, In nd nodes -> ltb (fst nd) x = true) ->
    Interpolator.piecewise_linear_apply zero add sub mul div ltb nodes x =
      Some (add v0 (mul (div (sub v1 v0) (sub k1 k0)) (sub x k0))).
Proof.
  intros F zero add sub mul div ltb Hord nodes x i k0 v0 k1 v1 Hn Hs H0 H1 Hcase.
  apply (values_at_bracket F zero add sub mul div ltb ltb (fun y => y)
           nodes x i k0 v0 k1 v1 Hn Hs H0 H1).
  intros p Hp Hspec.
  destruct (StrategyFacts.bracket_choice F ltb nodes x p Hn Hp Hspec)
    as (Hin & Hlow & Hhigh).
  destruct Hcase as [[Hlt Hge] | [[-> Hall] | [Hi Hall]]].
  - exact (Hin i (k0, v0) (k1, v1) H0 H1 Hlt Hge).
  - exact (Hlow Hall).
  - rewrite (Hhigh Hall). symmetry. exact Hi.
Qed.

Lemma piecewise_linear_bracket_choice_witness :
  2 <= length Rat.nodes2dbl /\
  Interpolator.ascending Rat.ltb Rat.nodes2dbl = true /\
  (Rat.ltb 1 5 = true /\ Rat.ltb 10 5 = false) /\
  Rat.piecewise_linear_apply Rat.nodes2dbl 5%Q =
    Some (1 + ((10 - 1) / (10 - 1)) * (5 - 1))%Q.
Proof.
  split; [simpl; lia |]. split; [reflexivity |].
  split; [split; reflexivity |].
  exact (piecewise_linear_bracket_choice Q 0%Q Qplus Qminus Qmult Qdiv Rat.ltb
           Rat_ltb_order Rat.nodes2dbl 5%Q 0 1%Q 1%Q 10%Q 10%Q
           ltac:(simpl; lia) eq_refl eq_refl eq_refl
           (or_introl (conj eq_refl eq_refl))).
Defined.

(** [piecewise_log_linear] for a positive argument on at least two
    ascending nodes uses the same bracket as [piecewise_linear] and returns
    [v0 + ((v1 - v0) / log(k1 / k0)) * log(x / k0)]. *)
Theorem piecewise_log_linear_value :
  forall (F : Type) (zero : F) (add sub mul div : F -> F -> F)
         (ltb leb : F -> F -> bool) (log : F -> F)
         (Hord : StrictWeakOrder ltb)
         (nodes : list (F * F)) (x : F),
    2 <= length nodes ->
    Interpolator.ascending ltb nodes = true ->
    leb x zero = false ->
    exists j k0 v0 k1 v1,
      nth_error nodes j = Some (k0, v0) /\
      nth_error nodes (S j) = Some (k1, v1) /\
      Interpolator.piecewise_linear_apply zero add sub mul div ltb nodes x =
        Some (add v0 (mul (div (sub v1 v0) (sub k1 k0)) (sub x k0))) /\
      Interpolator.piecewise_log_linear_apply zero add sub mul div ltb leb log
        nodes x =
        Some (add v0 (mul (div (sub v1 v0) (log (div k1 k0)))
                          (log (div x k0)))).
Proof.
  intros F zero add sub mul div ltb leb log Hord nodes x Hn Hs Hx.
  destruct (StrategyFacts.bracket F ltb nodes x Hn Hs)
    as (p & [k0 v0] & [k1 v1] & Hp & Hb & Hspec & Hn0 & Hn1).
  pose proof (StrategyFacts.clamp_in_range (length nodes) p Hn Hb) as Hc.
  exists (pred (Interpolator.clamp (length nodes) p)), k0, v0, k1, v1.
  replace (S (pred (Interpolator.clamp (length nodes) p)))
    with (Interpolator.clamp (length nodes) p) by lia.
  split; [exact Hn0 |]. split; [exact Hn1 |].
  destruct (values_at_bracket F zero add sub mul div ltb leb log nodes x
              (pred (Interpolator.clamp (length nodes) p)) k0 v0 k1 v1 Hn Hs Hn0)
    as [Hlin Hlog].
  - replace (S (pred (Interpolator.clamp (length nodes) p)))
      with (Interpolator.clamp (length nodes) p) by lia. exact Hn1.
  - intros q Hq Hqs.
    assert (q = p) as ->; [| lia].
    apply (partition_point_unique (F * F) (fun nd => ltb (fst nd) x) nodes
             (length nodes)); trivial.
    + intros i a Hi Ha. apply (Hqs i a Ha), Hi.
    + intros i a Hi Ha. destruct (ltb (fst a) x) eqn:E; trivial.
      apply (Hqs i a Ha) in E. lia.
    + intros i a Hi Ha. apply (Hspec i a Ha), Hi.
    + intros i a Hi Ha. destruct (ltb (fst a) x) eqn:E; trivial.
      apply (Hspec i a Ha) in E. lia.
  - split; [exact Hlin | exact (Hlog Hx)].
Qed.

Lemma piecewise_log_linear_value_witness :
  2 <= length Rat.nodes2dbl /\
  Interpolator.ascending Rat.ltb Rat.nodes2dbl = true /\
  Rat.leb 5 0 = false /\
  exists r, Rat.piecewise_log_linear_apply Rat.some_log Rat.nodes2dbl 5%Q
            = Some r.
Proof.
  split; [simpl; lia |]. split; [reflexivity |]. split; [reflexivity |].
  destruct (piecewise_log_linear_value Q 0%Q Qplus Qminus Qmult Qdiv Rat.ltb
              Rat.leb Rat.some_log Rat_ltb_order Rat.nodes2dbl 5%Q
              ltac:(simpl; lia) eq_refl eq_refl)
    as (j & k0 & v0 & k1 & v1 & _ & _ & _ & Hlog).
  eexists. exact Hlog.
Defined.

(* ------------------------------------------------------------------ *)
(** ** [interpolating_map]: construct, then evaluate                    *)
(* ------------------------------------------------------------------ *)

Section DistinctKeys.
Variables K V : Type.
Variable ltb : K -> K -> bool.
Context {ltb_order : StrictWeakOrder ltb}.


End DistinctKeys.



(* ------------------------------------------------------------------ *)
(** ** [vector_map::find] for stored and for missing keys               *)
(* ------------------------------------------------------------------ *)

Lemma key_equivb_true (K : Type) (ltb : K -> K -> bool) (a b : K) :
  key_equivb ltb a b = true <-> key_equiv ltb a b.
Proof.
  unfold key_equivb, key_equiv.
  rewrite andb_true_iff, !negb_true_iff. reflexivity.
Qed.

(** [find] on a sorted map, for an [operator==] that agrees with the
    ordering: for a key that some node has it returns the position of the
    first node with that key; for a key that no node has, but that is less
    than some stored key, it returns [end()]. *)
Theorem find_stored_and_missing_keys :
  forall (K V : Type) (ltb eqb : K -> K -> bool) (Hord : StrictWeakOrder ltb)
         (Heqb : forall a b, eqb a b = key_equivb ltb a b)
         (m : VectorMap.vector_map K V) (k : K),
    VectorMap.is_sorted ltb m = true ->
    ((exists nd, In nd (VectorMap.mem_ m) /\ key_equivb ltb (fst nd) k = true) ->
     exists p nd,
       VectorMap.find ltb eqb m k = Some p /\
       nth_error (VectorMap.mem_ m) p = Some nd /\
       key_equivb ltb (fst nd) k = true /\
       forall j nd', j < p -> nth_error (VectorMap.mem_ m) j = Some nd' ->
                     ltb (fst nd') k = true) /\
    ((forall nd, In nd (VectorMap.mem_ m) -> key_equivb ltb (fst nd) k = false) ->
     (exists nd, In nd (VectorMap.mem_ m) /\ ltb k (fst nd) = true) ->
     VectorMap.find ltb eqb m k = Some (VectorMap.end_ m)).
Proof.
  intros K V ltb eqb Hord Heqb m k Hs.
  destruct (VectorMapFacts.bounds_characterised K V ltb m k Hs)
    as (lb & ub & Hlb & _ & _ & Hb & Hspec).
  destruct (VectorMapFacts.find_cases K V ltb eqb m k)
    as (it & Hit & _ & _ & Hfind).
  assert (it = lb) as -> by congruence.
  assert (Hat : lb < VectorMap.size m ->
                exists nd, nth_error (VectorMap.mem_ m) lb = Some nd).
  { intros Hl. destruct (nth_error (VectorMap.mem_ m) lb) as [nd |] eqn:E;
      [eauto |]. apply nth_error_None in E. unfold VectorMap.size in Hl. lia. }
  split.
  - intros (nd & Hin & Heq). apply In_nth_error in Hin. destruct Hin as [i Hi].
    apply key_equivb_true in Heq.
    destruct (Hspec i nd Hi) as (_ & _ & H3). apply H3 in Heq.
    destruct (Hat ltac:(lia)) as [nd0 Hnd0].
    exists lb, nd0.
    destruct (Hspec lb nd0 Hnd0) as (H1 & _ & H3').
    assert (He : key_equivb ltb (fst nd0) k = true)
      by (apply key_equivb_true, H3'; lia).
    rewrite (Hfind nd0 Hnd0), Heqb, He.
    split; [reflexivity |]. split; [exact Hnd0 |]. split; [reflexivity |].
    intros j nd' Hj Hnd'. exact (proj1 (proj1 (Hspec j nd' Hnd')) Hj).
  - intros Hall (nd & Hin & Hgt). apply In_nth_error in Hin.
    destruct Hin as [i Hi].
    assert (Hil : i < VectorMap.size m)
      by (apply nth_error_Some; unfold VectorMap.value_type in *; congruence).
    destruct (Hspec i nd Hi) as (_ & H2 & _).
    assert (Hub : ~ i < ub) by (intros Hc; apply H2 in Hc; congruence).
    destruct (Hat ltac:(lia)) as [nd0 Hnd0].
    rewrite (Hfind nd0 Hnd0), Heqb, (Hall nd0 (nth_error_In _ _ Hnd0)).
    reflexivity.
Qed.

Lemma Z_eqb_equivb (a b : Z) : Z.eqb a b = key_equivb Z.ltb a b.
Proof.
  unfold key_equivb.
  destruct (Z.eqb_spec a b), (Z.ltb_spec a b), (Z.ltb_spec b a);
    try reflexivity; lia.
Qed.

Lemma find_stored_and_missing_keys_witness :
  VectorMap.is_sorted Z.ltb IntMap.with_duplicates = true /\
  (exists nd, In nd (VectorMap.mem_ IntMap.with_duplicates) /\
              key_equivb Z.ltb (fst nd) 2%Z = true) /\
  exists p, VectorMap.find Z.ltb Z.eqb IntMap.with_duplicates 2%Z = Some p /\
            p = 1.
Proof.
  assert (Hex : exists nd, In nd (VectorMap.mem_ IntMap.with_duplicates) /\
                           key_equivb Z.ltb (fst nd) 2%Z = true)
    by (exists (2, 21)%Z; split; [right; right; left; reflexivity | reflexivity]).
  split; [reflexivity |]. split; [exact Hex |].
  destruct (proj1 (find_stored_and_missing_keys Z Z Z.ltb Z.eqb Z_ltb_order
                     Z_eqb_equivb IntMap.with_duplicates 2%Z eq_refl) Hex)
    as (p & nd & Hf & _).
  exists p. split; [exact Hf |]. injection Hf as <-. reflexivity.
Defined.
